(** * musicd: the client session layer and the id-filter sanitiser

  A shallow embedding of [src/client.c] (the per-event session cycle,
  [client_send], [client_has_data]) and of the filter handling of
  [src/query.c] ([query_filter], [build_filters]), with the properties
  the specification states about them.

  Conventions.
  - A C [int] is a [Z]; where the source computes a new [int] from an
    old one ([client_send]) the wrap-around is written out.
  - A byte is a [Byte.byte]; a buffer or a C string is a [list byte].
  - The session is passed explicitly: a function that mutates
    [client_t *client] takes a [client_t] and returns the new one.
  - The system calls [read] and [write] are not run: what they return
    in a cycle is an input of that cycle.
  - Calls into the protocol plug-in are recorded in a trace, so that
    "is invoked" and "is not invoked" are statements about that trace. *)

From Stdlib Require Import ZArith Lia Bool String.
From Stdlib Require Import Strings.Byte.
From stdpp Require Import base list.

Local Open Scope Z_scope.

(** ** The byte buffer [string_t] *)

Module Strings.

(** Modelled from the spec: [strings.c] ([string_t] and its
    operations) is not under src/.  Section 4.1 describes the buffer as
    an ordered sequence of bytes with append, bulk removal from the
    front and size/content inspection; the argument lists are the ones
    the callers in [client.c] and [query.c] use. *)
Definition string_t := list byte.

(** A string literal of the source, as bytes. *)
Definition lit (s : string) : list byte := list_byte_of_string s.

(** Modelled from the spec: [string_new()], the empty buffer. *)
Definition string_new : string_t := [].

(** Modelled from the spec: [string_size(s)], the number of bytes held. *)
Definition string_size (s : string_t) : Z := Z.of_nat (length s).

(** Modelled from the spec: [string_string(s)], the content, not copied. *)
Definition string_string (s : string_t) : list byte := s.

(** Modelled from the spec: [string_nappend(s, data, n)] appends the
    first [n] bytes of [data]. *)
Definition string_nappend (s : string_t) (data : list byte) (n : Z) : string_t :=
  s ++ take (Z.to_nat n) data.

(** The content of a NUL-terminated C string: the bytes before the
    first NUL. *)
Fixpoint c_str (p : list byte) : list byte :=
  match p with
  | [] => []
  | b :: rest => if Byte.eqb b x00 then [] else b :: c_str rest
  end.

(** Modelled from the spec: [string_append(s, cstr)] appends; it takes
    no length, so what it appends is the C string at [cstr]. *)
Definition string_append (s : string_t) (cstr : list byte) : string_t :=
  s ++ c_str cstr.

(** Modelled from the spec: [string_push_back(s, c)] appends one byte. *)
Definition string_push_back (s : string_t) (c : byte) : string_t :=
  s ++ [c].

(** Modelled from the spec: [string_remove_front(s, n)] removes the
    first [n] bytes and keeps the others in order; the callers pass
    [0 <= n]. *)
Definition string_remove_front (s : string_t) (n : Z) : string_t :=
  drop (Z.to_nat n) s.

(** Modelled from the spec: [string_release(s)] hands the content over
    as a C string. *)
Definition string_release (s : string_t) : list byte := s.

End Strings.

Import Strings.

(** ** [client.c] *)

Module Client.

Declare Scope block_scope.
Delimit Scope block_scope with block.

(** [EWOULDBLOCK] of <errno.h> (the Linux value; no proof depends on
    the number). *)
Definition EWOULDBLOCK : Z := 11.

Section WithProtocols.

(** The private state a protocol keeps behind [void *self].  The core
    never looks into it; the plug-in's calls take it and return it. *)
Variable handle : Type.

(** What a plug-in call does to the session.  The plug-ins are not
    part of [client.c]; by the interface they act on the session through
    [client_write]/[client_send], which queue output, and through the
    feed flag, and they keep their own state behind [self].  The input
    buffer and the binding belong to the core. *)
Record effect_t := {
  eff_self : option handle;
  eff_out : list byte;
  eff_feed : option bool
}.

(** [protocol_t]: the descriptor whose members [client.c] uses.
    [detect] and [process] take the buffer and its size; [open]
    takes the session, of which it is given the descriptor, the
    address label and the input read so far.  The member [feed] is
    [feed_cb] here, [feed] being the flag of [client_t]. *)
Record protocol_t := {
  name : string;
  detect : list byte -> Z -> Z;
  open : Z -> string -> list byte -> effect_t;
  process : option handle -> list byte -> Z -> Z * effect_t;
  feed_cb : option handle -> effect_t
}.

(** [client_t], from the members the source touches. *)
Record client_t := {
  fd : Z;
  address : string;
  inbuf : string_t;
  outbuf : string_t;
  protocol : option protocol_t;
  self : option handle;
  feed : bool
}.

Definition set_inbuf (c : client_t) (b : string_t) : client_t :=
  {| fd := fd c; address := address c; inbuf := b; outbuf := outbuf c;
     protocol := protocol c; self := self c; feed := feed c |}.

Definition set_outbuf (c : client_t) (b : string_t) : client_t :=
  {| fd := fd c; address := address c; inbuf := inbuf c; outbuf := b;
     protocol := protocol c; self := self c; feed := feed c |}.

Definition set_protocol (c : client_t) (p : option protocol_t) : client_t :=
  {| fd := fd c; address := address c; inbuf := inbuf c; outbuf := outbuf c;
     protocol := p; self := self c; feed := feed c |}.

(** The session after a plug-in call returned with effect [e]. *)
Definition apply_effect (e : effect_t) (c : client_t) : client_t :=
  {| fd := fd c; address := address c; inbuf := inbuf c;
     outbuf := outbuf c ++ eff_out e;
     protocol := protocol c; self := eff_self e;
     feed := match eff_feed e with Some b => b | None => feed c end |}.

(** Calls into the plug-in, in the order they are made. *)
Inductive call_t :=
| CallDetect (p : protocol_t) (buf : list byte)
| CallOpen (p : protocol_t)
| CallProcess (p : protocol_t) (buf : list byte)
| CallFeed (p : protocol_t).

Definition is_detect (e : call_t) : bool :=
  match e with CallDetect _ _ => true | _ => false end.
Definition is_open (e : call_t) : bool :=
  match e with CallOpen _ => true | _ => false end.
Definition is_process (e : call_t) : bool :=
  match e with CallProcess _ _ => true | _ => false end.
Definition is_feed (e : call_t) : bool :=
  match e with CallFeed _ => true | _ => false end.

Definition count (f : call_t -> bool) (t : list call_t) : nat :=
  length (List.filter f t).

(** What [read(fd, buffer, 1024)] did: its return value, [errno], and
    the bytes it left in [buffer]. *)
Record read_t := { rd_n : Z; rd_errno : Z; rd_buffer : list byte }.

(** What [write(fd, data, size)] did. *)
Record write_t := { wr_n : Z; wr_errno : Z }.

(** The system calls of one cycle. *)
Record io_t := { io_read : read_t; io_write : write_t }.

(** [read_data], lines 37-60, given what [read] did.  The log calls
    are left out, here and below. *)
Definition read_data (r : read_t) (client : client_t) : Z * client_t :=
  let n := rd_n r in
  if n =? 0 then (-1, client)
  else if n <? 0 then
    if rd_errno r =? EWOULDBLOCK then (0, client) else (-1, client)
  else (n, set_inbuf client (string_nappend (inbuf client) (rd_buffer r) n)).

(** [write_data], lines 63-81, given what [write] did. *)
Definition write_data (w : write_t) (client : client_t) : Z * client_t :=
  let n := wr_n w in
  if n <? 0 then
    if wr_errno w =? EWOULDBLOCK then (0, client) else (-1, client)
  else (0, set_outbuf client (string_remove_front (outbuf client) n)).

(** The registry [protocols], a NULL-terminated array defined outside
    [client.c]. *)
Variable protocols : list protocol_t.

(** The loop of [find_protocol] from [ps] on: the descriptor it stops
    at ([None] for the terminating NULL) and the probes made. *)
Fixpoint find_protocol_from (ps : list protocol_t) (buf : list byte)
  : option protocol_t * list call_t :=
  match ps with
  | [] => (None, [])
  | p :: rest =>
      if detect p buf (Z.of_nat (length buf)) =? 1
      then (Some p, [CallDetect p buf])
      else let '(r, t) := find_protocol_from rest buf in
           (r, CallDetect p buf :: t)
  end.

(** [find_protocol], lines 84-95. *)
Definition find_protocol (client : client_t) : client_t * list call_t :=
  let '(r, t) :=
    find_protocol_from protocols (string_string (inbuf client)) in
  (set_protocol client r, t).

(** [client_new], lines 97-107: all members zero but [fd] and the two
    fresh buffers. *)
Definition client_new (fd0 : Z) : client_t :=
  {| fd := fd0; address := EmptyString;
     inbuf := string_new; outbuf := string_new;
     protocol := None; self := None; feed := false |}.

(** *** Control flow of [client_process]

    The function is a sequence of blocks, each of which either leaves
    the function with a value ([Return]) or falls through to the next
    block ([Next]).  A block yields the flow, the session and the
    plug-in calls it made. *)
Inductive flow_t := Return (result : Z) | Next.

Definition block_t : Type := client_t -> flow_t * client_t * list call_t.

Definition seq_block (b1 b2 : block_t) : block_t :=
  fun client =>
    match b1 client with
    | (Return r, c1, t1) => (Return r, c1, t1)
    | (Next, c1, t1) =>
        let '(f, c2, t2) := b2 c1 in (f, c2, t1 ++ t2)
    end.

Notation "b1 ;; b2" := (seq_block b1 b2)
  (at level 100, b2 at level 200, right associativity) : block_scope.

(** Lines 122-125. *)
Definition block_read (r : read_t) : block_t :=
  fun client =>
    let '(result, c1) := read_data r client in
    if result <? 0 then (Return result, c1, []) else (Next, c1, []).

(** Lines 127-143. *)
Definition block_bind : block_t :=
  fun client =>
    match protocol client with
    | Some _ => (Next, client, [])
    | None =>
        let '(c1, t) := find_protocol client in
        match protocol c1 with
        | None => (Return (-1), c1, t)
        | Some p =>
            let e := open p (fd c1) (address c1) (string_string (inbuf c1)) in
            (Next, apply_effect e c1, t ++ [CallOpen p])
        end
    end.

(** Lines 147-153. *)
Definition block_flush (w : write_t) : block_t :=
  fun client =>
    if string_size (outbuf client) >? 0 then
      let '(result, c1) := write_data w client in
      if result <? 0 then (Return result, c1, []) else (Next, c1, [])
    else (Next, client, []).

(** Lines 157-172.  A protocol is bound whenever this block is
    reached; with none the C code would call through a NULL pointer,
    and the model makes no call. *)
Definition block_input : block_t :=
  fun client =>
    match protocol client with
    | None => (Next, client, [])
    | Some p =>
        if string_size (inbuf client) >? 0 then
          let buf := string_string (inbuf client) in
          let '(result, e) :=
            process p (self client) buf (string_size (inbuf client)) in
          let c1 := apply_effect e client in
          if result <? 0 then (Return result, c1, [CallProcess p buf])
          else (Next, set_inbuf c1 (string_remove_front (inbuf c1) result),
                [CallProcess p buf])
        else if feed client && (string_size (outbuf client) =? 0) then
          (Next, apply_effect (feed_cb p (self client)) client, [CallFeed p])
        else (Next, client, [])
    end.

(** One cycle: the value [client_process] returns, the session it
    leaves and the plug-in calls it made. *)
Definition client_process (io : io_t) (client : client_t)
  : Z * client_t * list call_t :=
  match (block_read (io_read io) ;; block_bind ;;
         block_flush (io_write io) ;; block_input)%block client with
  | (Return r, c, t) => (r, c, t)
  | (Next, c, t) => (0, c, t)
  end.

(** The session with which the process/feed block of a cycle is
    entered, when the cycle gets that far. *)
Definition reaches_input (io : io_t) (client : client_t)
  : option client_t :=
  match (block_read (io_read io) ;; block_bind ;;
         block_flush (io_write io))%block client with
  | (Next, c2, _) => Some c2
  | (Return _, _, _) => None
  end.

(** Modelled from the spec: the reactor that calls [client_process]
    ([server.c]) is not under src/.  Section 4.3: a cycle runs per
    readiness event, and after a negative result the session is closed
    and no further operation is invoked on it.  [client_run] runs the
    cycles of [ios] in order until one reports failure. *)
Fixpoint client_run (ios : list io_t) (client : client_t)
  : client_t * list call_t :=
  match ios with
  | [] => (client, [])
  | io :: rest =>
      let '(result, c1, t1) := client_process io client in
      if result <? 0 then (c1, t1)
      else let '(c2, t2) := client_run rest c1 in (c2, t1 ++ t2)
  end.

(** *** [client_send] *)

Definition INT_MAX : Z := 2147483647.

(** An [int] result, wrapped to 32 bits two's complement. *)
Definition wrap_int (z : Z) : Z :=
  (z + 2147483648) mod 4294967296 - 2147483648.

(** An [int] passed where a [size_t] is expected. *)
Definition size_t_of_int (z : Z) : Z := z mod 18446744073709551616.

(** [vsnprintf(buf, size, format, va_args)] of <stdio.h> (C99), where
    [msg] is the output the conversion of [format] with its arguments
    produces: at most [size - 1] bytes of it are stored, followed by a
    NUL, and the length of the whole of [msg] is returned; a negative
    value is returned when that length is not representable. *)
Definition vsnprintf (msg : list byte) (size : Z) : Z * list byte :=
  let n := Z.of_nat (length msg) in
  let stored :=
    if size =? 0 then [] else take (Z.to_nat (size - 1)) msg ++ [x00] in
  (if n <=? INT_MAX then n else -1, stored).

(** The [while (1)] loop of lines 185-201.  [fuel] bounds the number
    of iterations; [None] when it is used up. *)
Fixpoint client_send_loop (fuel : nat) (msg : list byte) (size : Z)
  : option (Z * list byte) :=
  match fuel with
  | O => None
  | S fuel' =>
      let '(n, buf) := vsnprintf msg (size_t_of_int size) in
      if (n >? -1) && (n <? size) then Some (n, buf)
      else
        let size' := if n >? -1 then wrap_int (n + 1) else wrap_int (size * 2) in
        client_send_loop fuel' msg size'
  end.

(** [client_send], lines 177-205, on the message [msg] that [format]
    and its arguments produce: the loop, then [string_append] of the
    buffer it filled; the value returned is the last [n]. *)
Definition client_send (fuel : nat) (client : client_t) (msg : list byte)
  : option (Z * client_t) :=
  match client_send_loop fuel msg 128 with
  | None => None
  | Some (n, buf) =>
      Some (n, set_outbuf client (string_append (outbuf client) buf))
  end.

(** [client_write], lines 207-211. *)
Definition client_write (client : client_t) (data : list byte) (n : Z)
  : Z * client_t :=
  (n, set_outbuf client (string_nappend (outbuf client) data n)).

(** [client_has_data], lines 214-220. *)
Definition client_has_data (client : client_t) : bool :=
  if (string_size (outbuf client) >? 0) || feed client then true else false.

End WithProtocols.

Arguments eff_self {handle} _.
Arguments eff_out {handle} _.
Arguments eff_feed {handle} _.
Arguments name {handle} _.
Arguments detect {handle} _ _ _.
Arguments open {handle} _ _ _ _.
Arguments process {handle} _ _ _ _.
Arguments feed_cb {handle} _ _.
Arguments fd {handle} _.
Arguments address {handle} _.
Arguments inbuf {handle} _.
Arguments outbuf {handle} _.
Arguments protocol {handle} _.
Arguments self {handle} _.
Arguments feed {handle} _.
Arguments set_inbuf {handle} _ _.
Arguments set_outbuf {handle} _ _.
Arguments set_protocol {handle} _ _.
Arguments apply_effect {handle} _ _.
Arguments CallDetect {handle} _ _.
Arguments CallOpen {handle} _.
Arguments CallProcess {handle} _ _.
Arguments CallFeed {handle} _.
Arguments is_detect {handle} _.
Arguments is_open {handle} _.
Arguments is_process {handle} _.
Arguments is_feed {handle} _.
Arguments count {handle} _ _.
Arguments read_data {handle} _ _.
Arguments write_data {handle} _ _.
Arguments find_protocol_from {handle} _ _.
Arguments find_protocol {handle} _ _.
Arguments client_new {handle} _.
Arguments seq_block {handle} _ _ _.
Arguments block_read {handle} _ _.
Arguments block_bind {handle} _ _.
Arguments block_flush {handle} _ _.
Arguments block_input {handle} _.
Arguments client_process {handle} _ _ _.
Arguments reaches_input {handle} _ _ _.
Arguments client_run {handle} _ _ _.
Arguments client_send {handle} _ _ _.
Arguments client_write {handle} _ _ _.
Arguments client_has_data {handle} _.

Notation "b1 ;; b2" := (seq_block b1 b2)
  (at level 100, b2 at level 200, right associativity) : block_scope.

End Client.

(** ** [query.c]: filters *)

Module Query.

(** [query_field_t] is declared in [query.h], which is not under src/.
    The initialisers of [field_names], [id_fields] and the [*_maps]
    tables fix its range: [QUERY_FIELD_NONE] is 0 and
    [QUERY_FIELD_ALL] is 10.  A field is its number. *)
Definition query_field_t := nat.
Definition QUERY_FIELD_NONE : query_field_t := 0%nat.
Definition QUERY_FIELD_ALL : query_field_t := 10%nat.

Definition id_fields : list bool :=
  [false; true; true; true; true; false; false; false; false; false; false].

Record query_format := {
  body : list byte;
  maps : list (option (list byte))
}.

Definition track_maps : list (option (list byte)) :=
  [None;
   Some (lit "tracks.rowid");
   Some (lit "tracks.rowid");
   Some (lit "tracks.artist");
   Some (lit "tracks.album");
   Some (lit "tracks.title");
   Some (lit "artists.name");
   Some (lit "albums.name");
   Some (lit "tracks.track");
   Some (lit "tracks.duration");
   Some (lit "(COALESCE(tracks.title, '') || COALESCE(artists.name, '') || COALESCE(albums.name, ''))")].

Definition track_query : query_format :=
  {| body := lit "SELECT tracks.rowid AS trackid, urls.path AS url, tracks.track AS track, tracks.title AS title, tracks.artist AS artistid, artists.name AS artist, tracks.album AS albumid, albums.name AS album, tracks.start AS start, tracks.duration AS duration FROM tracks JOIN urls ON tracks.url = urls.rowid LEFT OUTER JOIN artists ON tracks.artist = artists.rowid LEFT OUTER JOIN albums ON tracks.album = albums.rowid";
     maps := track_maps |}.

Definition artist_maps : list (option (list byte)) :=
  [None;
   Some (lit "artists.rowid");
   None;
   Some (lit "artists.rowid");
   None;
   None;
   Some (lit "artists.name");
   None;
   None;
   None;
   Some (lit "(COALESCE(artists.name, ''))")].

Definition artist_query : query_format :=
  {| body := lit "SELECT artists.rowid AS artistid, artists.name AS artist FROM artists";
     maps := artist_maps |}.

Definition album_maps : list (option (list byte)) :=
  [None;
   Some (lit "albums.rowid");
   None;
   None;
   Some (lit "albums.rowid");
   None;
   None;
   Some (lit "albums.name");
   None;
   None;
   Some (lit "(COALESCE(albums.name, ''))")].

Definition album_query : query_format :=
  {| body := lit "SELECT albums.rowid AS albumid, albums.name AS album FROM albums";
     maps := album_maps |}.

(** [struct query] without its [sqlite3_stmt].  A [char *] member is
    [None] for NULL and otherwise the content of the C string. *)
Record query_t := {
  format : query_format;
  filters : list (option (list byte));
  limit : Z;
  offset : Z;
  order : string_t
}.

Definition query_new (f : query_format) : query_t :=
  {| format := f;
     filters := replicate (S QUERY_FIELD_ALL) None;
     limit := -1; offset := 0; order := string_new |}.

Definition query_tracks_new : query_t := query_new track_query.
Definition query_artists_new : query_t := query_new artist_query.
Definition query_albums_new : query_t := query_new album_query.

Definition set_filter (query : query_t) (field : query_field_t)
    (v : option (list byte)) : query_t :=
  {| format := format query;
     filters := <[field := v]> (filters query);
     limit := limit query; offset := offset query; order := order query |}.

(** The test of line 203 on the character [c] under [filter]: [c] is
    a comma, or lies between the digits 0 and 9.  It reads the same
    whether [char] is signed or not: a byte above 0x7f is outside the
    digits either way. *)
Definition is_id_char (c : byte) : bool :=
  Byte.eqb c "," || ((48 <=? Byte.to_N c)%N && (Byte.to_N c <=? 57)%N).

(** The [for] loop of lines 202-206 over the C string [filter], which
    ends at its first NUL. *)
Fixpoint query_filter_loop (filter : list byte) (string : string_t) : string_t :=
  match filter with
  | [] => string
  | c :: rest =>
      if Byte.eqb c x00 then string
      else if is_id_char c
           then query_filter_loop rest (string_push_back string c)
           else query_filter_loop rest string
  end.

(** [stringf("%%%s%%", filter)]. *)
Definition like_pattern (filter : list byte) : list byte :=
  lit "%" ++ c_str filter ++ lit "%".

(** [query_filter].  [field] is a [query_field_t]; outside
    [0..QUERY_FIELD_ALL] the C code indexes out of bounds, and the
    model reads [false] from [id_fields] and stores nothing. *)
Definition query_filter (query : query_t) (field : query_field_t)
    (filter : option (list byte)) : query_t :=
  match filter with
  | None => set_filter query field None
  | Some f =>
      if negb (default false (id_fields !! field))
      then set_filter query field (Some (like_pattern f))
      else set_filter query field
             (Some (string_release (query_filter_loop f string_new)))
  end.

(** The body of the [for] loop of [build_filters] at index [i], on the
    text built so far and the [join] flag. *)
Definition build_filters_body (query : query_t) (i : nat)
    (st : string_t * bool) : string_t * bool :=
  let '(sql, join) := st in
  match default None (filters query !! i),
        default None (maps (format query) !! i) with
  | Some f, Some m =>
      let sql1 := if negb join then sql ++ lit "WHERE " else sql ++ lit " AND " in
      if negb (default false (id_fields !! i))
      then (sql1 ++ m ++ lit " LIKE ?", true)
      else (sql1 ++ m ++ lit " IN (" ++ f ++ lit ")", true)
  | _, _ => st
  end.

(** A byte of a comma-separated list of decimal numbers. *)
Definition id_byte (b : byte) : Prop :=
  b = ","%byte \/ (48 <= Byte.to_N b <= 57)%N.

(** Every filter stored for an id field is made of such bytes. *)
Definition id_filters_clean (query : query_t) : Prop :=
  forall (i : nat) (s : list byte),
    id_fields !! i = Some true ->
    filters query !! i = Some (Some s) ->
    Forall id_byte s.

Definition build_filters (query : query_t) : list byte :=
  string_release
    (fst (foldl (fun st i => build_filters_body query i st)
                (string_new, false) (seq 1 QUERY_FIELD_ALL))).

End Query.

(** ** Concrete plug-ins and sessions

  Small protocol descriptors on which the statements below are run. *)

Module Examples.

Import Client.

Definition no_effect (h : option nat) : effect_t nat :=
  {| eff_self := h; eff_out := []; eff_feed := None |}.

(** Matches input that starts with the byte [tag]. *)
Definition detect_tag (tag : byte) (buf : list byte) (n : Z) : Z :=
  match buf with
  | b :: _ => if Byte.eqb b tag then 1 else 0
  | [] => 0
  end.

(** Consumes whole lines: up to and including the last ["\n"]; each
    call counts in the handle and answers with ["+"]. *)
Fixpoint last_newline (buf : list byte) (pos best : Z) : Z :=
  match buf with
  | [] => best
  | b :: rest =>
      last_newline rest (pos + 1) (if Byte.eqb b x0a then pos + 1 else best)
  end.

Definition process_lines (h : option nat) (buf : list byte) (n : Z)
  : Z * effect_t nat :=
  (last_newline buf 0 0,
   {| eff_self := Some (S (default 0%nat h)); eff_out := ["+"%byte];
      eff_feed := None |}).

(** Streams one byte per call. *)
Definition feed_dot (h : option nat) : effect_t nat :=
  {| eff_self := h; eff_out := ["."%byte]; eff_feed := None |}.

Definition proto (nm : string) (tag : byte) : protocol_t nat :=
  {| name := nm;
     detect := detect_tag tag;
     open := fun _ _ _ => no_effect (Some 0%nat);
     process := process_lines;
     feed_cb := feed_dot |}.

Definition proto_a := proto "a" "A".
Definition proto_b := proto "b" "B".
(** A second descriptor that matches what [proto_b] matches. *)
Definition proto_b' := proto "b2" "B".

Definition registry : list (protocol_t nat) := [proto_a; proto_b; proto_b'].

Definition would_block : read_t := {| rd_n := -1; rd_errno := EWOULDBLOCK; rd_buffer := [] |}.
Definition read_eof : read_t := {| rd_n := 0; rd_errno := 0; rd_buffer := [] |}.
Definition read_bytes (b : list byte) : read_t :=
  {| rd_n := Z.of_nat (length b); rd_errno := 0; rd_buffer := b |}.
Definition wrote (n : Z) : write_t := {| wr_n := n; wr_errno := 0 |}.

(** A session bound to [proto_b]. *)
Definition bound (inb outb : list byte) (fl : bool) : client_t nat :=
  {| fd := 3; address := "peer"; inbuf := inb; outbuf := outb;
     protocol := Some proto_b; self := Some 0%nat; feed := fl |}.

End Examples.

(** ** [client.c]: a run of flushes *)

Module ClientFlush.

Import Client.

Section WithHandle.

Variable handle : Type.

(** The bytes a [write] call that returned [wr_n] took from the buffer
    it was given: the first [wr_n] of them, none when it failed. *)
Definition written (w : write_t) (client : client_t handle) : list byte :=
  if wr_n w <? 0 then []
  else take (Z.to_nat (wr_n w)) (string_string (outbuf client)).

(** The flush block of [client_process] (lines 147-153) over a run of
    cycles in which nothing else touches the output buffer: the bytes
    sent, in order, and the session left.  The run stops at a fatal
    write error. *)
Fixpoint flush_run (ws : list write_t) (client : client_t handle)
  : list byte * client_t handle :=
  match ws with
  | [] => ([], client)
  | w :: rest =>
      match block_flush w client with
      | (Return _, c1, _) => ([], c1)
      | (Next, c1, _) =>
          let sent :=
            if string_size (outbuf client) >? 0 then written w client
            else [] in
          let '(more, c2) := flush_run rest c1 in
          (sent ++ more, c2)
      end
  end.

End WithHandle.

Arguments written {handle} _ _.
Arguments flush_run {handle} _ _.

End ClientFlush.

(** ** [query.c]: field names, sorting, bindings *)

Module QuerySort.

Import Query.

Definition field_names : list (list byte) :=
  [lit ""; lit "id"; lit "trackid"; lit "artistid"; lit "albumid";
   lit "title"; lit "artist"; lit "album"; lit "track"; lit "duration"].

(** [!strcmp(a, b)] on two C strings: they agree byte by byte up to and
    including the terminating NUL (the end of a list stands for one). *)
Fixpoint strcmp_eq (a b : list byte) : bool :=
  match a, b with
  | [], [] => true
  | [], y :: _ => Byte.eqb y x00
  | x :: _, [] => Byte.eqb x x00
  | x :: a', y :: b' =>
      if Byte.eqb x y
      then (if Byte.eqb x x00 then true else strcmp_eq a' b')
      else false
  end.

(** The [for] loop of lines 57-61, from index [i] over the names left. *)
Fixpoint query_field_from_string_loop (names : list (list byte)) (i : nat)
    (string : list byte) : option query_field_t :=
  match names with
  | [] => None
  | nm :: rest =>
      if strcmp_eq string nm then Some i
      else query_field_from_string_loop rest (S i) string
  end.

(** [query_field_from_string], lines 54-67. *)
Definition query_field_from_string (string : list byte) : query_field_t :=
  match query_field_from_string_loop (drop 1 field_names) 1 string with
  | Some i => i
  | None =>
      if strcmp_eq string (lit "all") || strcmp_eq string (lit "search")
      then QUERY_FIELD_ALL
      else QUERY_FIELD_NONE
  end.

Definition set_order (query : query_t) (o : string_t) : query_t :=
  {| format := format query; filters := filters query;
     limit := limit query; offset := offset query; order := o |}.

(** [query_limit] and [query_offset], lines 210-218. *)
Definition query_limit (query : query_t) (l : Z) : query_t :=
  {| format := format query; filters := filters query;
     limit := l; offset := offset query; order := order query |}.

Definition query_offset (query : query_t) (o : Z) : query_t :=
  {| format := format query; filters := filters query;
     limit := limit query; offset := o; order := order query |}.

(** The text [string_appendf(order, "%s COLLATE NOCASE %s", ...)] adds
    for the column [m]. *)
Definition order_clause (m : list byte) (descending : bool) : list byte :=
  m ++ lit " COLLATE NOCASE " ++ (if descending then lit "DESC" else lit "ASC").

(** [query_sort], lines 220-233.  As in [query_filter], a field outside
    the table reads as unmapped. *)
Definition query_sort (query : query_t) (field : query_field_t)
    (descending : bool) : query_t :=
  match default None (maps (format query) !! field) with
  | None => query
  | Some m =>
      let order1 :=
        if string_size (order query) >? 0
        then string_append (order query) (lit ", ")
        else order query in
      set_order query (order1 ++ order_clause m descending)
  end.

(** The inner [for] loop of line 250: the bytes from [sort] up to the
    first comma or NUL, and the rest from that byte on. *)
Fixpoint scan_name (sort : list byte) : list byte * list byte :=
  match sort with
  | [] => ([], [])
  | c :: rest =>
      if Byte.eqb c "," || Byte.eqb c x00 then ([], sort)
      else let '(nm, end_) := scan_name rest in (c :: nm, end_)
  end.

(** The [while] loop of [query_sort_from_string], lines 242-268.
    Modelled from the spec: [strextract(sort, end)] of [strings.c] is
    not under src/; it is the copy of the bytes from [sort] up to
    [end], which is the name [scan_name] yields.  [fuel] bounds the
    iterations. *)
Fixpoint query_sort_from_string_loop (fuel : nat) (query : query_t)
    (sort : list byte) : option (Z * query_t) :=
  match fuel with
  | O => None
  | S fuel' =>
      match sort with
      | [] => Some (0, query)
      | c :: rest0 =>
          if Byte.eqb c x00 then Some (0, query)
          else
            let '(descending, sort1) :=
              if Byte.eqb c "-" then (true, rest0) else (false, sort) in
            let '(nm, end_) := scan_name sort1 in
            let field := query_field_from_string nm in
            if Nat.eqb field QUERY_FIELD_NONE then Some (-1, query)
            else
              let query1 := query_sort query field descending in
              let sort2 :=
                match end_ with
                | c' :: rest2 => if Byte.eqb c' "," then rest2 else end_
                | [] => []
                end in
              query_sort_from_string_loop fuel' query1 sort2
      end
  end.

(** [query_sort_from_string]: every iteration that goes on has taken at
    least one byte, so one more than the length is fuel enough. *)
Definition query_sort_from_string (query : query_t) (sort : list byte)
  : option (Z * query_t) :=
  query_sort_from_string_loop (S (length sort)) query sort.

(** A sort list as a client writes it: the field names, each with a
    minus sign in front when descending, separated by commas. *)
Definition sort_item (it : list byte * bool) : list byte :=
  (if snd it then lit "-" else []) ++ fst it.

Fixpoint sort_string (items : list (list byte * bool)) : list byte :=
  match items with
  | [] => []
  | [it] => sort_item it
  | it :: rest => sort_item it ++ lit "," ++ sort_string rest
  end.

(** A name as it can stand in a sort list: not empty, not starting with
    a minus sign, without comma or NUL. *)
Definition plain_name (nm : list byte) : Prop :=
  (exists c r, nm = c :: r /\ c <> "-"%byte /\ c <> x00) /\
  Forall (fun b => b <> ","%byte /\ b <> x00) nm.

(** What follows a name in a sort list: nothing, or a comma and more. *)
Definition after_name (tail : list byte) : Prop :=
  tail = [] \/ exists r, tail = ","%byte :: r.

(** Clauses joined by [", "]. *)
Fixpoint join_clauses (cs : list (list byte)) : list byte :=
  match cs with
  | [] => []
  | [c] => c
  | c :: rest => c ++ lit ", " ++ join_clauses rest
  end.

(** The clause [query_sort] adds for an item, if the format maps the
    field. *)
Definition item_clause (f : query_format) (it : query_field_t * bool)
  : option (list byte) :=
  match default None (maps f !! fst it) with
  | None => None
  | Some m => Some (order_clause m (snd it))
  end.

(** The body of the [for] loop of [bind_filters], lines 307-312, at
    index [i], on the next parameter number and the
    [sqlite3_bind_text] calls made so far. *)
Definition bind_filters_body (query : query_t) (i : nat)
    (st : Z * list (Z * list byte)) : Z * list (Z * list byte) :=
  let '(n, binds) := st in
  match default None (filters query !! i) with
  | Some f =>
      if negb (default false (id_fields !! i))
      then (n + 1, binds ++ [(n, f)])
      else st
  | None => st
  end.

(** [bind_filters]: the parameters bound, with their numbers. *)
Definition bind_filters (query : query_t) : list (Z * list byte) :=
  snd (foldl (fun st i => bind_filters_body query i st)
             (1, []) (seq 1 QUERY_FIELD_ALL)).

Definition count_byte (b : byte) (l : list byte) : nat :=
  length (List.filter (Byte.eqb b) l).

Definition is_set {A} (o : option A) : bool :=
  match o with Some _ => true | None => false end.

(** The fields that carry a text filter for which the format of the
    query has no column. *)
Definition unmapped_text_filters (query : query_t) : list nat :=
  List.filter
    (fun i => is_set (default None (filters query !! i))
              && negb (default false (id_fields !! i))
              && negb (is_set (default None (maps (format query) !! i))))
    (seq 1 QUERY_FIELD_ALL).

(** The fields for which [build_filters] writes a clause. *)
Definition filtered_fields (query : query_t) : list nat :=
  List.filter
    (fun i => is_set (default None (filters query !! i))
              && is_set (default None (maps (format query) !! i)))
    (seq 1 QUERY_FIELD_ALL).

(** No column name of the format holds a question mark. *)
Definition maps_plain (f : query_format) : Prop :=
  Forall (fun m => match m with
                   | Some m => count_byte "?" m = 0%nat
                   | None => True
                   end) (maps f).

End QuerySort.

(** ** More concrete plug-ins and system-call results *)

Module ExamplesMore.

Import Client Examples.

(** A process that gives up: it queues a complaint and returns -7. *)
Definition process_fail (h : option nat) (buf : list byte) (n : Z)
  : Z * effect_t nat :=
  (-7, {| eff_self := h; eff_out := lit "!"; eff_feed := None |}).

Definition proto_f : protocol_t nat :=
  {| name := "f";
     detect := detect_tag "F";
     open := fun _ _ _ => no_effect (Some 0%nat);
     process := process_fail;
     feed_cb := feed_dot |}.

(** A session bound to [p]. *)
Definition bound_to (p : protocol_t nat) (inb outb : list byte) (fl : bool)
  : client_t nat :=
  {| fd := 3; address := "peer"; inbuf := inb; outbuf := outb;
     protocol := Some p; self := Some 0%nat; feed := fl |}.

(** [ECONNRESET] on read, [EPIPE] on write. *)
Definition read_error : read_t :=
  {| rd_n := -1; rd_errno := 104; rd_buffer := [] |}.
Definition write_error : write_t := {| wr_n := -1; wr_errno := 32 |}.

End ExamplesMore.

(** * Properties of the session cycle *)

Module ClientSpec.

Import Client.
Local Open Scope block_scope.

Section Cycle.

Context {handle : Type} (protocols : list (protocol_t handle)).

Implicit Types (c client : client_t handle) (p : protocol_t handle)
  (io : io_t) (t : list (call_t handle)).

(** *** The read step *)

Lemma read_data_eof (r : read_t) c :
  rd_n r = 0 -> read_data r c = (-1, c).
Proof. intros H. unfold read_data. rewrite H. reflexivity. Qed.

Lemma read_data_would_block (r : read_t) c :
  rd_n r < 0 -> rd_errno r = EWOULDBLOCK -> read_data r c = (0, c).
Proof.
  intros Hn He. unfold read_data.
  destruct (Z.eqb_spec (rd_n r) 0); [lia|].
  destruct (Z.ltb_spec (rd_n r) 0); [|lia].
  rewrite He, Z.eqb_refl. reflexivity.
Qed.

Lemma read_data_protocol (r : read_t) c :
  protocol (snd (read_data r c)) = protocol c.
Proof.
  unfold read_data.
  repeat match goal with |- context [if ?b then _ else _] => destruct b end;
    reflexivity.
Qed.

(** C6: a read of 0 bytes on a session without a bound protocol ends
    the cycle with the terminal result -1, the session untouched and no
    detect, open, process or feed call made. *)
Theorem client_process_eof_unbound io c :
  protocol c = None ->
  rd_n (io_read io) = 0 ->
  client_process protocols io c = (-1, c, []).
Proof.
  intros _ Hn. unfold client_process, seq_block, block_read.
  rewrite (read_data_eof _ _ Hn). reflexivity.
Qed.

(** C9: [client_has_data] answers true exactly when the output buffer
    holds at least one byte or the feed flag is set, and false exactly
    when neither is the case. *)
Theorem client_has_data_iff c :
  (client_has_data c = true <->
     0 < string_size (outbuf c) \/ feed c = true) /\
  (client_has_data c = false <->
     ~ 0 < string_size (outbuf c) /\ feed c = false).
Proof.
  unfold client_has_data.
  destruct (Z.gtb_spec (string_size (outbuf c)) 0) as [Hs|Hs];
    destruct (feed c); simpl; split; split;
    try tauto; try (intros; discriminate); try lia;
    try (intros [?|?]; [lia|discriminate]);
    try (intros [? ?]; first [lia|discriminate]).
Qed.

(** C2, amended: a read classified as would-block changes nothing and
    reports no error by itself; on a bound session the cycle then goes
    on with the flush and process/feed blocks on the unchanged session,
    and it returns 0 with the session unchanged and no plug-in call
    made when both buffers are empty and the feed flag is clear. *)
Theorem client_process_would_block io c :
  rd_n (io_read io) < 0 ->
  rd_errno (io_read io) = EWOULDBLOCK ->
  read_data (io_read io) c = (0, c) /\
  (forall p, protocol c = Some p ->
     client_process protocols io c =
       match (block_flush (io_write io) ;; block_input) c with
       | (Return r, c', t) => (r, c', t)
       | (Next, c', t) => (0, c', t)
       end /\
     (inbuf c = [] -> outbuf c = [] -> feed c = false ->
      client_process protocols io c = (0, c, []))).
Proof.
  intros Hn He.
  pose proof (read_data_would_block _ c Hn He) as Hr.
  split; [exact Hr|]. intros p Hp.
  assert (Hcont : client_process protocols io c =
    match (block_flush (io_write io) ;; block_input) c with
    | (Return r, c', t) => (r, c', t)
    | (Next, c', t) => (0, c', t)
    end).
  { unfold client_process. unfold seq_block at 1. unfold block_read.
    rewrite Hr. simpl. unfold seq_block at 1. unfold block_bind.
    rewrite Hp.
    destruct ((block_flush (io_write io) ;; block_input) c)
      as [[[r|] c'] t]; reflexivity. }
  split; [exact Hcont|].
  intros Hin Hout Hfeed. rewrite Hcont.
  unfold seq_block, block_flush, block_input, string_size.
  rewrite Hout. simpl. rewrite Hp, Hin. simpl. rewrite Hfeed.
  reflexivity.
Qed.

(** *** Detection *)

Lemma find_protocol_from_first (pre post : list (protocol_t handle)) p buf :
  Forall (fun q => detect q buf (Z.of_nat (length buf)) <> 1) pre ->
  detect p buf (Z.of_nat (length buf)) = 1 ->
  find_protocol_from (pre ++ p :: post) buf =
    (Some p, map (fun q => CallDetect q buf) (pre ++ [p])).
Proof.
  intros Hpre Hp. induction Hpre as [|q pre Hq _ IH]; simpl.
  - rewrite Hp. reflexivity.
  - destruct (Z.eqb_spec (detect q buf (Z.of_nat (length buf))) 1);
      [contradiction|].
    rewrite IH. reflexivity.
Qed.

Lemma find_protocol_from_none (ps : list (protocol_t handle)) buf :
  Forall (fun q => detect q buf (Z.of_nat (length buf)) <> 1) ps ->
  find_protocol_from ps buf = (None, map (fun q => CallDetect q buf) ps).
Proof.
  induction 1 as [|q ps Hq _ IH]; simpl; [reflexivity|].
  destruct (Z.eqb_spec (detect q buf (Z.of_nat (length buf))) 1);
    [contradiction|].
  rewrite IH. reflexivity.
Qed.

(** *** What the later blocks leave alone *)

Lemma block_flush_frame (w : write_t) c f c' t :
  block_flush w c = (f, c', t) ->
  protocol c' = protocol c /\ inbuf c' = inbuf c /\ self c' = self c /\
  feed c' = feed c /\ t = [].
Proof.
  unfold block_flush, write_data. intros H.
  repeat match type of H with
         | context [if ?b then _ else _] => destruct b
         end; inversion H; subst; auto.
Qed.

Lemma block_input_frame c f c' t :
  block_input c = (f, c', t) ->
  protocol c' = protocol c /\
  count is_detect t = 0%nat /\ count is_open t = 0%nat.
Proof.
  unfold block_input. intros H.
  destruct (protocol c) as [p|] eqn:Hp.
  - destruct (string_size (inbuf c) >? 0).
    + destruct (process p (self c) (string_string (inbuf c))
                  (string_size (inbuf c))) as [r e].
      destruct (r <? 0); inversion H; subst; simpl; auto.
    + destruct (feed c && (string_size (outbuf c) =? 0));
        inversion H; subst; simpl; auto.
  - inversion H; subst; auto.
Qed.

(** C3: on a session without a bound protocol whose read did not end
    the cycle, the descriptors are probed in registration order up to
    and including the first whose detect returns 1; the session is
    bound to that one (later descriptors, matching or not, are not
    probed) and its open follows at once.  When no descriptor matches,
    every one is probed once, the cycle returns -1 and leaves the
    session unbound, and no open, process or feed call is made. *)
Theorem find_protocol_first_match io c :
  protocol c = None ->
  0 <= fst (read_data (io_read io) c) ->
  let buf := inbuf (snd (read_data (io_read io) c)) in
  let matches q := detect q buf (Z.of_nat (length buf)) = 1 in
  let '(result, c', t) := client_process protocols io c in
  (forall pre p post,
      protocols = pre ++ p :: post ->
      Forall (fun q => ~ matches q) pre ->
      matches p ->
      protocol c' = Some p /\
      exists rest,
        t = map (fun q => CallDetect q buf) (pre ++ [p])
              ++ CallOpen p :: rest /\
        count is_detect rest = 0%nat /\ count is_open rest = 0%nat) /\
  (Forall (fun q => ~ matches q) protocols ->
   result = -1 /\ protocol c' = None /\
   t = map (fun q => CallDetect q buf) protocols).
Proof.
  intros Hunb Hread.
  pose proof (read_data_protocol (io_read io) c) as Hp1.
  destruct (read_data (io_read io) c) as [r c1] eqn:Hrd.
  simpl in Hread, Hp1. simpl. rewrite Hunb in Hp1.
  unfold client_process. unfold seq_block at 1. unfold block_read.
  rewrite Hrd.
  destruct (Z.ltb_spec r 0) as [?|_]; [lia|].
  unfold seq_block at 1. unfold block_bind, find_protocol.
  rewrite Hp1. unfold string_string.
  destruct (find_protocol_from protocols (inbuf c1)) as [found t0] eqn:Hf.
  destruct found as [p0|]; simpl.
  - (* bound to [p0] *)
    set (c2 := apply_effect _ _).
    unfold seq_block.
    destruct (block_flush (io_write io) c2) as [[f3 c3] t3] eqn:Hfl.
    destruct (block_flush_frame _ _ _ _ _ Hfl) as (Hp3 & _ & _ & _ & ->).
    assert (Hp2 : protocol c2 = Some p0) by reflexivity.
    assert (Hkey : forall c' t' r',
      protocol c' = Some p0 ->
      count is_detect t' = 0%nat -> count is_open t' = 0%nat ->
      (forall pre p post,
          protocols = pre ++ p :: post ->
          Forall (fun q => detect q (inbuf c1) (Z.of_nat (length (inbuf c1))) <> 1) pre ->
          detect p (inbuf c1) (Z.of_nat (length (inbuf c1))) = 1 ->
          protocol c' = Some p /\
          exists rest,
            [] ++ (t0 ++ [CallOpen p0]) ++ t' =
              map (fun q => CallDetect q (inbuf c1)) (pre ++ [p])
                ++ CallOpen p :: rest /\
            count is_detect rest = 0%nat /\ count is_open rest = 0%nat) /\
      (Forall (fun q => detect q (inbuf c1) (Z.of_nat (length (inbuf c1))) <> 1) protocols ->
       r' = -1 /\ protocol c' = None /\
       [] ++ (t0 ++ [CallOpen p0]) ++ t' =
         map (fun q => CallDetect q (inbuf c1)) protocols)).
    { intros c' t' r' Hc' Hd Ho. split.
      - intros pre p post Hsplit Hpre Hm.
        rewrite Hsplit, (find_protocol_from_first _ _ _ _ Hpre Hm) in Hf.
        inversion Hf; subst p0 t0. split; [exact Hc'|].
        exists t'. simpl. rewrite <- app_assoc. simpl. auto.
      - intros Hnone. rewrite (find_protocol_from_none _ _ Hnone) in Hf.
        discriminate. }
    destruct f3 as [r3|].
    + apply Hkey; [congruence|reflexivity|reflexivity].
    + destruct (block_input c3) as [[f4 c4] t4] eqn:Hin.
      destruct (block_input_frame _ _ _ _ Hin) as (Hp4 & Hd4 & Ho4).
      simpl. destruct f4; apply Hkey; congruence.
  - (* no descriptor matched *)
    split.
    + intros pre p post Hsplit Hpre Hm.
      rewrite Hsplit, (find_protocol_from_first _ _ _ _ Hpre Hm) in Hf.
      discriminate.
    + intros Hnone. rewrite (find_protocol_from_none _ _ Hnone) in Hf.
      inversion Hf; subst. auto.
Qed.

(** *** The process/feed block *)

Lemma seq_block_assoc (b1 b2 b3 : block_t handle) c :
  ((b1 ;; b2) ;; b3) c = (b1 ;; b2 ;; b3) c.
Proof.
  unfold seq_block.
  destruct (b1 c) as [[[r1|] c1] t1]; [reflexivity|].
  destruct (b2 c1) as [[[r2|] c2] t2]; [reflexivity|].
  destruct (b3 c2) as [[f3 c3] t3]. rewrite app_assoc. reflexivity.
Qed.

Lemma count_app (f : call_t handle -> bool) t1 t2 :
  count f (t1 ++ t2) = (count f t1 + count f t2)%nat.
Proof. unfold count. rewrite List.filter_app, length_app. reflexivity. Qed.

Lemma find_protocol_from_detects (ps : list (protocol_t handle)) buf :
  Forall (fun e => is_detect e = true) (snd (find_protocol_from ps buf)).
Proof.
  induction ps as [|q ps IH]; simpl; [constructor|].
  destruct (detect q buf (Z.of_nat (length buf)) =? 1); simpl.
  - repeat constructor.
  - destruct (find_protocol_from ps buf) as [r t0]. simpl in *.
    constructor; [reflexivity|exact IH].
Qed.

Lemma detects_count t :
  Forall (fun e => is_detect e = true) t ->
  count is_open t = 0%nat /\ count is_process t = 0%nat /\
  count is_feed t = 0%nat.
Proof.
  unfold count. induction 1 as [|e t He _ IH]; simpl; [auto|].
  destruct e; try discriminate; simpl; exact IH.
Qed.

(** The blocks before the process/feed block call neither process nor
    feed. *)
Lemma prefix_calls io c f c' t :
  (block_read (io_read io) ;; block_bind protocols ;;
   block_flush (io_write io)) c = (f, c', t) ->
  count is_process t = 0%nat /\ count is_feed t = 0%nat.
Proof.
  unfold seq_block, block_read.
  destruct (read_data (io_read io) c) as [r c1].
  destruct (r <? 0); [intros H; inversion H; subst; auto|].
  unfold block_bind, find_protocol.
  destruct (protocol c1) as [p1|].
  - destruct (block_flush (io_write io) c1) as [[f3 c3] t3] eqn:Hfl.
    destruct (block_flush_frame _ _ _ _ _ Hfl) as (_ & _ & _ & _ & ->).
    intros H; inversion H; subst; auto.
  - pose proof (find_protocol_from_detects protocols
                  (string_string (inbuf c1))) as Hd.
    destruct (find_protocol_from protocols (string_string (inbuf c1)))
      as [found t0].
    simpl in Hd. destruct (detects_count _ Hd) as (_ & Hpr & Hfe).
    destruct found as [p0|]; simpl.
    + destruct (block_flush (io_write io) _) as [[f3 c3] t3] eqn:Hfl.
      destruct (block_flush_frame _ _ _ _ _ Hfl) as (_ & _ & _ & _ & ->).
      intros H; inversion H; subst.
      rewrite !count_app, Hpr, Hfe. auto.
    + intros H; inversion H; subst. auto.
Qed.

(** A cycle that reaches the process/feed block is that block run on
    the session it is entered with. *)
Lemma client_process_reaches io c c2 :
  reaches_input protocols io c = Some c2 ->
  exists t0,
    count is_process t0 = 0%nat /\ count is_feed t0 = 0%nat /\
    client_process protocols io c =
      match block_input c2 with
      | (Return r, c', t) => (r, c', t0 ++ t)
      | (Next, c', t) => (0, c', t0 ++ t)
      end.
Proof.
  unfold reaches_input, client_process. intros H.
  rewrite <- !seq_block_assoc. rewrite <- seq_block_assoc in H.
  unfold seq_block at 1.
  destruct (((block_read (io_read io) ;; block_bind protocols) ;;
             block_flush (io_write io)) c) as [[f c2'] t0] eqn:Hpre.
  rewrite seq_block_assoc in Hpre.
  destruct (prefix_calls _ _ _ _ _ Hpre) as (Hpr & Hfe).
  destruct f as [r|]; [discriminate|]. inversion H; subst c2'.
  exists t0. repeat split; try assumption.
  destruct (block_input c2) as [[[r|] c'] t]; reflexivity.
Qed.

(** On a bound session the blocks before the process/feed block make
    no plug-in call, and the session that block is entered with is the
    one the read and the flush left. *)
Lemma reaches_input_bound io c p c2 :
  protocol c = Some p ->
  reaches_input protocols io c = Some c2 ->
  protocol c2 = Some p /\ self c2 = self c /\ feed c2 = feed c /\
  inbuf c2 = inbuf (snd (read_data (io_read io) c)) /\
  client_process protocols io c =
    match block_input c2 with
    | (Return r, c', t) => (r, c', t)
    | (Next, c', t) => (0, c', t)
    end.
Proof.
  intros Hp. unfold reaches_input, client_process, seq_block, block_read.
  pose proof (read_data_protocol (io_read io) c) as Hp1.
  assert (Hs1 : self (snd (read_data (io_read io) c)) = self c /\
                feed (snd (read_data (io_read io) c)) = feed c).
  { unfold read_data.
    repeat match goal with |- context [if ?b then _ else _] => destruct b end;
      auto. }
  destruct (read_data (io_read io) c) as [r c1]. simpl in *.
  destruct Hs1 as [Hs1 Hf1].
  destruct (r <? 0); [discriminate|].
  unfold block_bind. rewrite Hp1, Hp.
  destruct (block_flush (io_write io) c1) as [[f3 c3] t3] eqn:Hfl.
  destruct (block_flush_frame _ _ _ _ _ Hfl) as (Hp3 & Hi3 & Hs3 & Hf3 & ->).
  destruct f3 as [r3|]; [discriminate|].
  intros H; inversion H; subst c3.
  repeat split; try congruence.
  destruct (block_input c2) as [[[r4|] c4] t4]; reflexivity.
Qed.

(** A cycle that ends before the process/feed block calls neither
    process nor feed. *)
Lemma client_process_cut_short io c :
  reaches_input protocols io c = None ->
  count is_process (snd (client_process protocols io c)) = 0%nat /\
  count is_feed (snd (client_process protocols io c)) = 0%nat.
Proof.
  unfold reaches_input. intros H.
  destruct ((block_read (io_read io) ;; block_bind protocols ;;
             block_flush (io_write io)) c) as [[f c2'] t0] eqn:Hpre.
  destruct f as [r|]; [|discriminate].
  assert (Hcp : client_process protocols io c = (r, c2', t0)).
  { unfold client_process. rewrite <- !seq_block_assoc.
    unfold seq_block at 1. rewrite seq_block_assoc, Hpre. reflexivity. }
  rewrite Hcp. simpl. exact (prefix_calls _ _ _ _ _ Hpre).
Qed.

Lemma count_zero_in (f : call_t handle -> bool) t e :
  count f t = 0%nat -> In e t -> f e = false.
Proof.
  unfold count. induction t as [|e' t IH]; simpl; [tauto|].
  destruct (f e') eqn:He'; simpl; [discriminate|].
  intros H0 [->|Hin]; auto.
Qed.

Lemma read_data_inbuf (r : read_t) c :
  exists fresh, inbuf (snd (read_data r c)) = inbuf c ++ fresh.
Proof.
  unfold read_data, string_nappend.
  repeat match goal with |- context [if ?b then _ else _] => destruct b end;
    simpl; eauto using app_nil_r.
  all: exists []; rewrite app_nil_r; reflexivity.
Qed.

(** What the process/feed block does, case by case. *)
Lemma block_input_process c p consumed e :
  protocol c = Some p ->
  inbuf c <> [] ->
  process p (self c) (inbuf c) (string_size (inbuf c)) = (consumed, e) ->
  0 <= consumed ->
  block_input c =
    (Next,
     set_inbuf (apply_effect e c) (drop (Z.to_nat consumed) (inbuf c)),
     [CallProcess p (inbuf c)]).
Proof.
  intros Hp Hne Hpr Hc. unfold block_input, string_string.
  rewrite Hp.
  destruct (Z.gtb_spec (string_size (inbuf c)) 0) as [_|Hle].
  - rewrite Hpr. destruct (Z.ltb_spec consumed 0); [lia|]. reflexivity.
  - unfold string_size in Hle. destruct (inbuf c); [congruence|].
    simpl length in Hle. lia.
Qed.

Lemma block_input_calls c p f c' t :
  protocol c = Some p ->
  block_input c = (f, c', t) ->
  t = [CallProcess p (inbuf c)] \/
  (t = [CallFeed p] /\ f = Next /\
     inbuf c = [] /\ outbuf c = [] /\ feed c = true) \/
  (t = [] /\ f = Next /\ c' = c /\ inbuf c = [] /\
     (outbuf c <> [] \/ feed c = false)).
Proof.
  intros Hp. unfold block_input, string_string, string_size. rewrite Hp.
  destruct (Z.gtb_spec (Z.of_nat (length (inbuf c))) 0) as [Hgt|Hle].
  - destruct (process _ _ _ _) as [r e].
    destruct (r <? 0); intros H; inversion H; subst; auto.
  - assert (Hin : inbuf c = []) by (destruct (inbuf c); [reflexivity|simpl in Hle; lia]).
    destruct (feed c) eqn:Hf; simpl.
    + destruct (Z.eqb_spec (Z.of_nat (length (outbuf c))) 0) as [He|Hn];
        intros H; inversion H; subst.
      * right; left. repeat split; auto.
        destruct (outbuf c); [reflexivity|simpl in He; lia].
      * right; right. repeat split; auto. left.
        intros Ho. rewrite Ho in Hn. simpl in Hn. lia.
    + intros H; inversion H; subst. right; right. repeat split; auto.
Qed.

(** On a bound session a process call of the cycle is given the input
    buffer the cycle started with, followed by what the read added. *)
Lemma bound_process_sees io c p q buf :
  protocol c = Some p ->
  In (CallProcess q buf) (snd (client_process protocols io c)) ->
  exists fresh, buf = inbuf c ++ fresh.
Proof.
  intros Hp Hin.
  destruct (reaches_input protocols io c) as [c2|] eqn:Hre.
  - destruct (reaches_input_bound _ _ _ _ Hp Hre) as (Hp2 & _ & _ & Hi2 & Hcp).
    rewrite Hcp in Hin.
    destruct (block_input c2) as [[f c'] t] eqn:Hbi.
    destruct (block_input_calls _ _ _ _ _ Hp2 Hbi)
      as [Ht|[(Ht & _)|(Ht & _)]]; subst t;
      destruct f; simpl in Hin; intuition; try discriminate.
    all: match goal with H : CallProcess _ _ = CallProcess _ _ |- _ =>
           inversion H; subst end.
    all: rewrite Hi2; apply read_data_inbuf.
  - destruct (client_process_cut_short _ _ Hre) as (Hpr & _).
    pose proof (count_zero_in _ _ _ Hpr Hin). discriminate.
Qed.

(** C4: when the process call of a cycle is made on a non-empty input
    buffer and reports [consumed] with [0 <= consumed <= len], the
    cycle succeeds, the input buffer it leaves is the old one without
    its first [consumed] bytes (the rest in order), [consumed = 0]
    leaves it as it was, and a process call of the next cycle is given
    that remainder followed by newly read bytes only. *)
Theorem client_process_consumes_front io c c2 p consumed e :
  reaches_input protocols io c = Some c2 ->
  protocol c2 = Some p ->
  inbuf c2 <> [] ->
  process p (self c2) (inbuf c2) (string_size (inbuf c2)) = (consumed, e) ->
  0 <= consumed <= string_size (inbuf c2) ->
  let '(result, c', t) := client_process protocols io c in
  result = 0 /\
  (exists t0, t = t0 ++ [CallProcess p (inbuf c2)] /\
              count is_process t0 = 0%nat) /\
  inbuf c' = drop (Z.to_nat consumed) (inbuf c2) /\
  inbuf c2 = take (Z.to_nat consumed) (inbuf c2) ++ inbuf c' /\
  Z.of_nat (length (inbuf c')) = string_size (inbuf c2) - consumed /\
  (consumed = 0 -> inbuf c' = inbuf c2) /\
  (forall io' q buf,
      In (CallProcess q buf) (snd (client_process protocols io' c')) ->
      exists fresh, buf = inbuf c' ++ fresh).
Proof.
  intros Hre Hp2 Hne Hpr [Hc0 Hc1].
  destruct (client_process_reaches _ _ _ Hre) as (t0 & Hpr0 & _ & Hcp).
  rewrite Hcp, (block_input_process _ _ _ _ Hp2 Hne Hpr Hc0).
  split; [reflexivity|]. split; [eauto|]. simpl.
  split; [reflexivity|].
  split; [symmetry; apply take_drop|].
  split; [unfold string_size in *; rewrite length_drop; lia|].
  split; [intros ->; reflexivity|].
  intros io' q buf Hin.
  refine (bound_process_sees io' _ p q buf _ Hin). exact Hp2.
Qed.

(** C5: in a cycle on a bound session feed is called exactly when the
    process/feed block is reached with the input buffer empty, the
    output buffer empty and the feed flag set; it is then the only
    plug-in call of the cycle, so it is made once and process is not
    called.  In every other cycle feed is not called. *)
Theorem client_process_feed_iff io c p :
  protocol c = Some p ->
  let '(result, c', t) := client_process protocols io c in
  (count is_feed t = 1%nat <->
     exists c2, reaches_input protocols io c = Some c2 /\
                inbuf c2 = [] /\ outbuf c2 = [] /\ feed c2 = true) /\
  (count is_feed t = 1%nat -> t = [CallFeed p]) /\
  (count is_feed t <> 1%nat -> count is_feed t = 0%nat).
Proof.
  intros Hp.
  destruct (reaches_input protocols io c) as [c2|] eqn:Hre.
  - destruct (reaches_input_bound _ _ _ _ Hp Hre) as (Hp2 & _ & _ & _ & Hcp).
    rewrite Hcp.
    destruct (block_input c2) as [[f c'] t] eqn:Hbi.
    destruct (block_input_calls _ _ _ _ _ Hp2 Hbi)
      as [Ht|[(Ht & Hf & Hi & Ho & Hfe)|(Ht & Hf & _ & Hi & Hor)]]; subst t.
    + assert (Hne : inbuf c2 <> []).
      { intros Hi. unfold block_input, string_size in Hbi.
        rewrite Hp2, Hi in Hbi. simpl in Hbi.
        destruct (feed c2 && _); inversion Hbi. }
      destruct f; (split; [split|split]); unfold count; simpl;
        try discriminate; try congruence;
        intros (c3 & Heq & Hi & _); inversion Heq; subst; contradiction.
    + subst f. split; [split|split]; unfold count; simpl;
        try congruence; auto.
      intros _. exists c2. repeat split; assumption.
    + subst f. split; [split|split]; unfold count; simpl;
        try congruence.
      intros (c3 & Heq & _ & Ho & Hfe). inversion Heq; subst.
      destruct Hor; congruence.
  - destruct (client_process_cut_short _ _ Hre) as (_ & Hfe).
    destruct (client_process protocols io c) as [[r c'] t]. simpl in Hfe.
    rewrite Hfe. split; [split|split]; try discriminate; auto.
    intros (c3 & Heq & _). discriminate.
Qed.

(** *** The binding over a session's lifetime *)

Lemma count_zero_filter (f : call_t handle -> bool) t :
  count f t = 0%nat -> List.filter f t = [].
Proof. unfold count. destruct (List.filter f t); [reflexivity|discriminate]. Qed.

Lemma find_protocol_from_in (ps : list (protocol_t handle)) buf p :
  fst (find_protocol_from ps buf) = Some p -> In p ps.
Proof.
  induction ps as [|q ps IH]; simpl; [discriminate|].
  destruct (detect q buf (Z.of_nat (length buf)) =? 1); simpl.
  - intros H; inversion H; auto.
  - destruct (find_protocol_from ps buf) as [r t0]. simpl in *. auto.
Qed.

(** A cycle on a bound session keeps the binding and calls no open. *)
Lemma client_process_bound_stable io c p :
  protocol c = Some p ->
  protocol (snd (fst (client_process protocols io c))) = Some p /\
  List.filter is_open (snd (client_process protocols io c)) = [].
Proof.
  intros Hp. unfold client_process, seq_block, block_read.
  pose proof (read_data_protocol (io_read io) c) as Hp1.
  destruct (read_data (io_read io) c) as [r c1]. simpl in Hp1.
  rewrite Hp in Hp1.
  destruct (r <? 0); [simpl; auto|].
  unfold block_bind. rewrite Hp1.
  destruct (block_flush (io_write io) c1) as [[f3 c3] t3] eqn:Hfl.
  destruct (block_flush_frame _ _ _ _ _ Hfl) as (Hp3 & _ & _ & _ & ->).
  destruct f3 as [r3|]; [simpl; split; congruence|].
  destruct (block_input c3) as [[f4 c4] t4] eqn:Hin.
  destruct (block_input_frame _ _ _ _ Hin) as (Hp4 & _ & Ho4).
  apply count_zero_filter in Ho4.
  destruct f4; simpl; split; congruence.
Qed.

(** A cycle on an unbound session either leaves it unbound and calls
    no open, or binds it to a registered descriptor and calls that
    descriptor's open, once. *)
Lemma client_process_unbound_binding io c r c' t :
  protocol c = None ->
  client_process protocols io c = (r, c', t) ->
  match protocol c' with
  | Some p => List.filter is_open t = [CallOpen p] /\ In p protocols
  | None => List.filter is_open t = []
  end.
Proof.
  intros Hp. unfold client_process. unfold seq_block at 1.
  unfold block_read.
  pose proof (read_data_protocol (io_read io) c) as Hp1.
  destruct (read_data (io_read io) c) as [r1 c1]. simpl in Hp1.
  rewrite Hp in Hp1.
  destruct (r1 <? 0).
  { intros H; inversion H; subst. rewrite Hp1. reflexivity. }
  unfold seq_block at 1. unfold block_bind, find_protocol.
  rewrite Hp1.
  pose proof (find_protocol_from_detects protocols
                (string_string (inbuf c1))) as Hd.
  pose proof (find_protocol_from_in protocols
                (string_string (inbuf c1))) as Hmem.
  destruct (find_protocol_from protocols (string_string (inbuf c1)))
    as [found t0].
  simpl in Hd, Hmem. destruct (detects_count _ Hd) as (Ho0 & _ & _).
  apply count_zero_filter in Ho0.
  destruct found as [p0|]; simpl.
  2:{ intros H; inversion H; subst. simpl. exact Ho0. }
  set (c2 := apply_effect _ _).
  assert (Hp2 : protocol c2 = Some p0) by reflexivity.
  unfold seq_block.
  destruct (block_flush (io_write io) c2) as [[f3 c3] t3] eqn:Hfl.
  destruct (block_flush_frame _ _ _ _ _ Hfl) as (Hp3 & _ & _ & _ & ->).
  destruct f3 as [r3|]; simpl.
  - intros H; inversion H; subst.
    rewrite Hp3, Hp2, app_nil_r, List.filter_app, Ho0. simpl. auto.
  - destruct (block_input c3) as [[f4 c4] t4] eqn:Hin.
    destruct (block_input_frame _ _ _ _ Hin) as (Hp4 & _ & Ho4).
    apply count_zero_filter in Ho4.
    assert (Hgoal : protocol c4 = Some p0 /\
              List.filter is_open ((t0 ++ [CallOpen p0]) ++ t4) = [CallOpen p0]).
    { split; [congruence|].
      rewrite !List.filter_app, Ho0, Ho4. reflexivity. }
    destruct Hgoal as [Hc4 Hf4].
    destruct f4; simpl; intros H; inversion H; subst;
      rewrite Hc4; auto.
Qed.

Lemma client_run_bound (ios : list io_t) c p :
  protocol c = Some p ->
  protocol (fst (client_run protocols ios c)) = Some p /\
  List.filter is_open (snd (client_run protocols ios c)) = [].
Proof.
  revert c. induction ios as [|io ios IH]; intros c Hp; simpl; [auto|].
  destruct (client_process_bound_stable io c p Hp) as [Hp1 Ho1].
  destruct (client_process protocols io c) as [[r c1] t1]. simpl in Hp1, Ho1.
  destruct (r <? 0); [simpl; auto|].
  destruct (IH c1 Hp1) as [Hp2 Ho2].
  destruct (client_run protocols ios c1) as [c2 t2]. simpl in *.
  rewrite List.filter_app, Ho1, Ho2. auto.
Qed.

Lemma client_run_unbound (ios : list io_t) c :
  protocol c = None ->
  match protocol (fst (client_run protocols ios c)) with
  | Some p =>
      List.filter is_open (snd (client_run protocols ios c)) = [CallOpen p]
  | None => List.filter is_open (snd (client_run protocols ios c)) = []
  end.
Proof.
  revert c. induction ios as [|io ios IH]; intros c Hp; simpl.
  - rewrite Hp. reflexivity.
  - destruct (client_process protocols io c) as [[r c1] t1] eqn:Hcp.
    pose proof (client_process_unbound_binding io c _ _ _ Hp Hcp) as H1.
    destruct (r <? 0); simpl.
    + destruct (protocol c1); tauto.
    + destruct (protocol c1) as [p1|] eqn:Hp1.
      * destruct H1 as [Ho1 _].
        destruct (client_run_bound ios c1 p1 Hp1) as [Hp2 Ho2].
        destruct (client_run protocols ios c1) as [c2 t2]. simpl in *.
        rewrite Hp2, List.filter_app, Ho1, Ho2. reflexivity.
      * specialize (IH c1 Hp1).
        destruct (client_run protocols ios c1) as [c2 t2]. simpl in *.
        rewrite List.filter_app, H1. exact IH.
Qed.

(** Running more cycles is running the first ones and then, from the
    session they leave, the others (none of them once the session is
    closed). *)
Lemma client_run_app (ios1 ios2 : list io_t) c :
  exists ios2',
    client_run protocols (ios1 ++ ios2) c =
      (fst (client_run protocols ios2' (fst (client_run protocols ios1 c))),
       snd (client_run protocols ios1 c)
         ++ snd (client_run protocols ios2'
                   (fst (client_run protocols ios1 c)))).
Proof.
  revert c. induction ios1 as [|io ios1 IH]; intros c; simpl.
  - exists ios2. destruct (client_run protocols ios2 c). reflexivity.
  - destruct (client_process protocols io c) as [[r c1] t1].
    destruct (r <? 0).
    + exists []. simpl. rewrite app_nil_r. reflexivity.
    + destruct (IH c1) as (ios2' & Heq). exists ios2'. rewrite Heq.
      destruct (client_run protocols ios1 c1) as [c2 t2]. simpl.
      rewrite app_assoc. reflexivity.
Qed.

(** C7: over any sequence of cycles a binding, once there, stays the
    same; from creation on, open is called once in all, for the
    descriptor the session is bound to, and not at all while the
    session is unbound; and that call is made in the cycle that binds:
    a cycle on an unbound session that leaves it bound to [p] calls
    [p]'s open once, a cycle that leaves it unbound calls none, and a
    cycle on a bound session calls none. *)
Theorem client_run_binds_once :
  (forall c (ios1 ios2 : list io_t) p,
      protocol (fst (client_run protocols ios1 c)) = Some p ->
      protocol (fst (client_run protocols (ios1 ++ ios2) c)) = Some p) /\
  (forall fd0 (ios : list io_t),
      let '(c', t) := client_run protocols ios (client_new fd0) in
      match protocol c' with
      | Some p => List.filter is_open t = [CallOpen p]
      | None => List.filter is_open t = []
      end) /\
  (forall io c,
      let '(_, c', t) := client_process protocols io c in
      match protocol c, protocol c' with
      | None, Some p => List.filter is_open t = [CallOpen p]
      | None, None => List.filter is_open t = []
      | Some p, q => q = Some p /\ List.filter is_open t = []
      end).
Proof.
  split; [|split].
  - intros c ios1 ios2 p Hp.
    destruct (client_run_app ios1 ios2 c) as (ios2' & ->). simpl.
    apply client_run_bound, Hp.
  - intros fd0 ios.
    pose proof (client_run_unbound ios (client_new fd0) eq_refl) as H.
    destruct (client_run protocols ios (client_new fd0)) as [c' t].
    exact H.
  - intros io c. destruct (protocol c) as [p|] eqn:Hp.
    + pose proof (client_process_bound_stable io c p Hp) as H.
      destruct (client_process protocols io c) as [[r c'] t]. exact H.
    + destruct (client_process protocols io c) as [[r c'] t] eqn:Hcp.
      pose proof (client_process_unbound_binding io c _ _ _ Hp Hcp) as H.
      destruct (protocol c'); tauto.
Qed.

(** *** The flush block *)

(** A write that takes [n] of the bytes leaves the others, in order,
    and does not fail; a write that would block leaves all of them. *)
Lemma write_data_partial (w : write_t) c :
  0 <= wr_n w ->
  write_data w c =
    (0, set_outbuf c (drop (Z.to_nat (wr_n w)) (outbuf c))).
Proof.
  intros Hn. unfold write_data, string_remove_front.
  destruct (Z.ltb_spec (wr_n w) 0); [lia|reflexivity].
Qed.

Lemma write_data_would_block (w : write_t) c :
  wr_n w < 0 -> wr_errno w = EWOULDBLOCK -> write_data w c = (0, c).
Proof.
  intros Hn He. unfold write_data.
  destruct (Z.ltb_spec (wr_n w) 0); [|lia].
  rewrite He, Z.eqb_refl. reflexivity.
Qed.

(** The process call does not depend on what the flush left: with
    input pending, a bound session's cycle calls process whether or
    not the output buffer was drained. *)
Lemma client_process_input_pending io c c2 p :
  reaches_input protocols io c = Some c2 ->
  protocol c2 = Some p ->
  inbuf c2 <> [] ->
  In (CallProcess p (inbuf c2)) (snd (client_process protocols io c)).
Proof.
  intros Hre Hp2 Hne.
  destruct (client_process_reaches _ _ _ Hre) as (t0 & _ & _ & ->).
  destruct (block_input c2) as [[f c'] t] eqn:Hbi.
  destruct (block_input_calls _ _ _ _ _ Hp2 Hbi)
    as [Ht|[(_ & _ & Hi & _)|(_ & _ & _ & Hi & _)]]; try contradiction.
  subst t. destruct f; simpl; apply in_or_app; right; left; reflexivity.
Qed.

End Cycle.

(** *** [client_send] *)

Section Send.

Context {handle : Type}.

Lemma c_str_terminated (msg rest : list byte) :
  Forall (fun b => b <> x00) msg ->
  c_str (msg ++ x00 :: rest) = msg.
Proof.
  induction 1 as [|b msg Hb _ IH]; simpl; [reflexivity|].
  destruct (Byte.eqb b x00) eqn:E.
  - apply Byte.byte_dec_bl in E. contradiction.
  - rewrite IH. reflexivity.
Qed.

(** With room for the whole message the call stores it, terminated. *)
Lemma vsnprintf_fits (msg : list byte) (size : Z) :
  Z.of_nat (length msg) < size ->
  Z.of_nat (length msg) <= INT_MAX ->
  vsnprintf msg size = (Z.of_nat (length msg), msg ++ [x00]).
Proof.
  intros Hlt Hmax. unfold vsnprintf.
  destruct (Z.leb_spec (Z.of_nat (length msg)) INT_MAX); [|lia].
  destruct (Z.eqb_spec size 0); [lia|].
  rewrite take_ge by lia. reflexivity.
Qed.

Lemma vsnprintf_ret (msg : list byte) (size : Z) :
  Z.of_nat (length msg) <= INT_MAX ->
  fst (vsnprintf msg size) = Z.of_nat (length msg).
Proof.
  intros Hmax. unfold vsnprintf. simpl.
  destruct (Z.leb_spec (Z.of_nat (length msg)) INT_MAX); [reflexivity|lia].
Qed.

Lemma size_t_of_int_id (z : Z) :
  0 <= z <= INT_MAX -> size_t_of_int z = z.
Proof.
  unfold size_t_of_int, INT_MAX. intros H. apply Z.mod_small. lia.
Qed.

Lemma wrap_int_id (z : Z) : 0 <= z <= INT_MAX -> wrap_int z = z.
Proof.
  unfold wrap_int, INT_MAX. intros H.
  rewrite Z.mod_small by lia. lia.
Qed.

(** One pass of the loop with a buffer that is large enough. *)
Lemma client_send_loop_fits (msg : list byte) (size : Z) :
  Z.of_nat (length msg) < size <= INT_MAX ->
  client_send_loop 1 msg size = Some (Z.of_nat (length msg), msg ++ [x00]).
Proof.
  intros [Hlt Hmax]. unfold client_send_loop.
  rewrite size_t_of_int_id by lia.
  rewrite vsnprintf_fits by lia.
  destruct (Z.gtb_spec (Z.of_nat (length msg)) (-1)); [|lia].
  destruct (Z.ltb_spec (Z.of_nat (length msg)) size); [|lia].
  reflexivity.
Qed.

(** One pass with the initial 128 bytes when they are too few: the
    loop goes on with the size the call reported, plus one. *)
Lemma client_send_loop_grows (fuel : nat) (msg : list byte) :
  128 <= Z.of_nat (length msg) < INT_MAX ->
  client_send_loop (S fuel) msg 128 =
    client_send_loop fuel msg (Z.of_nat (length msg) + 1).
Proof.
  intros [Hge Hmax]. cbn [client_send_loop].
  pose proof (vsnprintf_ret msg (size_t_of_int 128) ltac:(lia)) as Hret.
  destruct (vsnprintf msg (size_t_of_int 128)) as [n buf]. simpl in Hret.
  subst n.
  destruct (Z.gtb_spec (Z.of_nat (length msg)) (-1)); [|lia].
  destruct (Z.ltb_spec (Z.of_nat (length msg)) 128); [lia|].
  simpl. rewrite wrap_int_id by lia. reflexivity.
Qed.

Lemma client_send_loop_more (fuel : nat) (msg : list byte) (size : Z) r :
  client_send_loop fuel msg size = Some r ->
  client_send_loop (S fuel) msg size = Some r.
Proof.
  revert size. induction fuel as [|fuel IH]; intros size; [discriminate|].
  intros H. cbn [client_send_loop] in H |- *.
  destruct (vsnprintf msg (size_t_of_int size)) as [n buf].
  destruct ((n >? -1) && (n <? size)); [exact H|].
  apply IH in H. exact H.
Qed.

Lemma client_send_loop_two (msg : list byte) :
  Z.of_nat (length msg) < INT_MAX ->
  client_send_loop 2 msg 128 =
    Some (Z.of_nat (length msg), msg ++ [x00]).
Proof.
  intros Hmax.
  destruct (Z.lt_ge_cases (Z.of_nat (length msg)) 128) as [Hlt|Hge].
  - apply client_send_loop_more, client_send_loop_fits.
    unfold INT_MAX. lia.
  - rewrite client_send_loop_grows by lia.
    apply client_send_loop_fits. lia.
Qed.

(** C8, amended: for a formatted message without a NUL byte and
    shorter than [INT_MAX], [client_send] sizes its buffer from the
    length the formatting call reports: 128 bytes are tried first,
    and when the message does not fit the loop retries once with that
    length plus one; the whole message is then appended to the output
    buffer and its length is returned. *)
Theorem client_send_appends (c : client_t handle) (msg : list byte) :
  Forall (fun b => b <> x00) msg ->
  Z.of_nat (length msg) < INT_MAX ->
  (forall fuel, (2 <= fuel)%nat ->
     client_send fuel c msg =
       Some (Z.of_nat (length msg), set_outbuf c (outbuf c ++ msg))) /\
  (Z.of_nat (length msg) < 128 ->
     client_send_loop 1 msg 128 =
       Some (Z.of_nat (length msg), msg ++ [x00])) /\
  (128 <= Z.of_nat (length msg) ->
     client_send_loop 1 msg 128 = None /\
     client_send_loop 2 msg 128 =
       client_send_loop 1 msg (Z.of_nat (length msg) + 1)).
Proof.
  intros Hnul Hmax. split; [|split].
  - intros fuel Hfuel.
    assert (Hloop : client_send_loop fuel msg 128 =
              Some (Z.of_nat (length msg), msg ++ [x00])).
    { induction Hfuel as [|fuel _ IH].
      - apply client_send_loop_two, Hmax.
      - apply client_send_loop_more, IH. }
    unfold client_send, string_append. rewrite Hloop.
    rewrite c_str_terminated by exact Hnul. reflexivity.
  - intros Hlt. apply client_send_loop_fits. unfold INT_MAX. lia.
  - intros Hge. split.
    + rewrite client_send_loop_grows by lia. reflexivity.
    + apply client_send_loop_grows. lia.
Qed.

End Send.

End ClientSpec.

(** * Properties of the id filters *)

Module QuerySpec.

Import Query.

Lemma is_id_char_spec (c : byte) : is_id_char c = true <-> id_byte c.
Proof.
  unfold is_id_char, id_byte. split.
  - intros H. apply orb_true_iff in H as [H|H].
    + left. apply Byte.byte_dec_bl, H.
    + right. apply andb_true_iff in H as [H1 H2].
      apply N.leb_le in H1, H2. lia.
  - intros [->|[H1 H2]]; [reflexivity|].
    apply orb_true_iff. right. apply andb_true_iff.
    split; apply N.leb_le; assumption.
Qed.

(** The loop keeps the id characters of the C string, in order, after
    what [string] already holds. *)
Lemma query_filter_loop_spec (filter : list byte) (string : string_t) :
  query_filter_loop filter string =
    string ++ List.filter is_id_char (c_str filter).
Proof.
  revert string. induction filter as [|c rest IH]; intros string; simpl.
  - rewrite app_nil_r. reflexivity.
  - destruct (Byte.eqb c x00); simpl; [rewrite app_nil_r; reflexivity|].
    destruct (is_id_char c); rewrite IH; [|reflexivity].
    unfold string_push_back. rewrite <- app_assoc. reflexivity.
Qed.

Lemma filter_id_bytes (l : list byte) :
  Forall id_byte (List.filter is_id_char l).
Proof.
  induction l as [|c l IH]; simpl; [constructor|].
  destruct (is_id_char c) eqn:E; [|exact IH].
  constructor; [apply is_id_char_spec, E|exact IH].
Qed.

Lemma id_fields_range (field : nat) :
  id_fields !! field = Some true -> (field < S QUERY_FIELD_ALL)%nat.
Proof.
  intros H. apply lookup_lt_Some in H. exact H.
Qed.

(** C10: for an id field and a non-null filter, [query_filter] stores
    the filter's commas and decimal digits, in order, and nothing
    else; a fresh query has no unclean id filter and no call of
    [query_filter] makes one; and [build_filters] puts the stored
    string of an id field between the parentheses of [IN (...)] as it
    is. *)
Theorem query_filter_id_sanitized :
  (forall (query : query_t) (field : query_field_t) (filter : list byte),
      id_fields !! field = Some true ->
      length (filters query) = S QUERY_FIELD_ALL ->
      filters (query_filter query field (Some filter)) !! field =
        Some (Some (List.filter is_id_char (c_str filter))) /\
      Forall id_byte (List.filter is_id_char (c_str filter))) /\
  (forall f : query_format, id_filters_clean (query_new f)) /\
  (forall (query : query_t) (field : query_field_t)
          (filter : option (list byte)),
      id_filters_clean query ->
      id_filters_clean (query_filter query field filter)) /\
  (forall (query : query_t) (i : nat) (s m sql : list byte) (join : bool),
      id_fields !! i = Some true ->
      filters query !! i = Some (Some s) ->
      maps (format query) !! i = Some (Some m) ->
      build_filters_body query i (sql, join) =
        (sql ++ (if join then lit " AND " else lit "WHERE ")
             ++ m ++ lit " IN (" ++ s ++ lit ")", true)).
Proof.
  split; [|split; [|split]].
  - intros query field filter Hid Hlen.
    split; [|apply filter_id_bytes].
    unfold query_filter. unfold query_field_t in *. rewrite Hid. simpl.
    rewrite list_lookup_insert_eq
      by (rewrite Hlen; apply id_fields_range, Hid).
    rewrite query_filter_loop_spec. reflexivity.
  - intros f i s _ H.
    change (filters (query_new f))
      with (replicate (S QUERY_FIELD_ALL) (@None (list byte))) in H.
    apply lookup_replicate in H as [H _]. discriminate.
  - intros query field filter Hclean i s Hid Hs.
    assert (Hcase : forall v,
              filters (set_filter query field v) !! i = Some (Some s) ->
              (i = field /\ v = Some s) \/ filters query !! i = Some (Some s)).
    { intros v Hv. simpl in Hv.
      apply list_lookup_insert_Some in Hv as [(-> & Hv & _)|(_ & Hv)].
      - left. split; [reflexivity|congruence].
      - right. exact Hv. }
    unfold query_filter in Hs. unfold query_field_t in *.
    destruct filter as [f|].
    + destruct (negb (default false (id_fields !! field))) eqn:Hneg.
      * apply Hcase in Hs as [(Heq & _)|Hs]; [|eauto].
        subst. rewrite Hid in Hneg. discriminate.
      * apply Hcase in Hs as [(_ & Hv)|Hs]; [|eauto].
        inversion Hv; subst s. rewrite query_filter_loop_spec.
        apply filter_id_bytes.
    + apply Hcase in Hs as [(_ & Hv)|Hs]; [discriminate|eauto].
  - intros query i s m sql join Hid Hs Hm.
    unfold build_filters_body. rewrite Hs, Hm, Hid. simpl.
    destruct join; simpl; rewrite <- !app_assoc; reflexivity.
Qed.

End QuerySpec.

(** * The statements at concrete sessions *)

Module Scenarios.

Import Client Examples ClientSpec.

(** ** Scenario C, with input pending *)

(** C1: a session bound to [proto_b] holds ten bytes of output and a
    pending line of input; the read would block and the write takes
    four bytes.  The cycle returns 0 and leaves the six unwritten bytes
    in front of the output buffer, but it does call process on the
    pending input, and the answer of that call is queued behind the
    six bytes. *)
Lemma partial_flush_still_processes :
  client_process registry
    {| io_read := would_block; io_write := wrote 4 |}
    (bound (lit "line" ++ [x0a]) (lit "0123456789") false)
  = (0,
     {| fd := 3; address := "peer"; inbuf := [];
        outbuf := lit "456789" ++ lit "+";
        protocol := Some proto_b; self := Some 1%nat; feed := false |},
     [CallProcess proto_b (lit "line" ++ [x0a])]).
Proof. reflexivity. Qed.

(** ** A cycle whose read would block *)

(** C2 as stated fails: on a bound session with both buffers empty
    and the feed flag set, a cycle whose read would block calls feed,
    and the output buffer changes. *)
Lemma would_block_cycle_feeds :
  let io := {| io_read := would_block; io_write := wrote 0 |} in
  let c := bound [] [] true in
  rd_n (io_read io) < 0 /\ rd_errno (io_read io) = EWOULDBLOCK /\
  snd (client_process registry io c) = [CallFeed proto_b] /\
  outbuf (snd (fst (client_process registry io c))) = lit "." /\
  ~ (client_process registry io c = (0, c, [])).
Proof.
  cbv zeta. split; [reflexivity|]. split; [reflexivity|].
  split; [reflexivity|]. split; [reflexivity|].
  intros H. apply (f_equal snd) in H. discriminate H.
Qed.

Lemma client_process_would_block_witness :
  let io := {| io_read := would_block; io_write := wrote 0 |} in
  let c := bound [] [] false in
  read_data (io_read io) c = (0, c) /\
  client_process registry io c = (0, c, []).
Proof.
  cbv zeta.
  destruct (client_process_would_block registry
              {| io_read := would_block; io_write := wrote 0 |}
              (bound [] [] false))
    as (Hread & Hbound).
  - vm_compute. reflexivity.
  - reflexivity.
  - split; [exact Hread|].
    apply (Hbound proto_b); reflexivity.
Defined.

(** ** Scenario A: the second of three descriptors matches *)

Lemma find_protocol_first_match_witness :
  let io := {| io_read := read_bytes (lit "Bye"); io_write := wrote 0 |} in
  let '(result, c', t) := client_process registry io (client_new 3) in
  protocol c' = Some proto_b /\
  exists rest,
    t = [CallDetect proto_a (lit "Bye"); CallDetect proto_b (lit "Bye");
         CallOpen proto_b] ++ rest /\
    count is_detect rest = 0%nat /\ count is_open rest = 0%nat.
Proof.
  cbv zeta.
  pose proof (find_protocol_first_match registry
                {| io_read := read_bytes (lit "Bye"); io_write := wrote 0 |}
                (client_new 3) eq_refl) as H.
  cbv zeta in H.
  destruct (client_process registry _ (client_new 3)) as [[r c'] t].
  destruct H as [H _]; [vm_compute; discriminate|].
  apply (H [proto_a] proto_b [proto_b']).
  - reflexivity.
  - repeat constructor. vm_compute. discriminate.
  - reflexivity.
Defined.

(** ** Scenario E and a partial line *)

Lemma client_process_consumes_front_witness :
  let io := {| io_read := read_bytes (lit "ine" ++ [x0a] ++ lit "wor");
               io_write := wrote 0 |} in
  let '(result, c', t) := client_process registry io (bound (lit "l") [] false) in
  result = 0 /\ inbuf c' = lit "wor".
Proof.
  cbv zeta.
  pose proof (client_process_consumes_front registry
                {| io_read := read_bytes (lit "ine" ++ [x0a] ++ lit "wor");
                   io_write := wrote 0 |}
                (bound (lit "l") [] false)
                (bound (lit "line" ++ [x0a] ++ lit "wor") [] false)
                proto_b 5
                {| eff_self := Some 1%nat; eff_out := lit "+";
                   eff_feed := None |}
                eq_refl eq_refl) as H.
  destruct (client_process registry _ (bound (lit "l") [] false))
    as [[r c'] t].
  destruct H as (Hr & _ & Hin & _).
  - discriminate.
  - reflexivity.
  - vm_compute. split; discriminate.
  - split; [exact Hr|]. rewrite Hin. reflexivity.
Defined.

(** ** Scenario D *)

Lemma client_process_feed_iff_witness :
  let io := {| io_read := would_block; io_write := wrote 0 |} in
  let '(result, c', t) := client_process registry io (bound [] [] true) in
  t = [CallFeed proto_b].
Proof.
  cbv zeta.
  pose proof (client_process_feed_iff registry
                {| io_read := would_block; io_write := wrote 0 |}
                (bound [] [] true) proto_b eq_refl) as H.
  destruct (client_process registry _ (bound [] [] true)) as [[r c'] t].
  destruct H as (Hiff & Honly & _).
  apply Honly, Hiff. exists (bound [] [] true).
  repeat split; reflexivity.
Defined.

(** ** Scenario B *)

Lemma client_process_eof_unbound_witness :
  client_process registry {| io_read := read_eof; io_write := wrote 0 |}
    (client_new 3) = (-1, client_new 3, []).
Proof.
  apply (client_process_eof_unbound registry
           {| io_read := read_eof; io_write := wrote 0 |} (client_new 3));
    reflexivity.
Defined.

(** ** A session's lifetime *)

Lemma client_run_binds_once_witness :
  let first := [ {| io_read := read_bytes (lit "Bye"); io_write := wrote 0 |} ] in
  let later := [ {| io_read := read_bytes (lit "Ahoy"); io_write := wrote 1 |};
                 {| io_read := would_block; io_write := wrote 0 |} ] in
  protocol (fst (client_run registry (first ++ later) (client_new 3)))
    = Some proto_b.
Proof.
  cbv zeta.
  apply (proj1 (client_run_binds_once registry) (client_new 3)).
  reflexivity.
Defined.

(** ** Formatting *)

(** C8 as stated fails: the message of the format ["a%cb"] with the
    argument 0 is three bytes long; [client_send] returns 3 and
    appends one byte. *)
Lemma client_send_nul_truncated :
  let msg := ["a"%byte; x00; "b"%byte] in
  let c := bound [] (lit "ok") false in
  client_send 2 c msg = Some (3, set_outbuf c (lit "oka")) /\
  client_send 2 c msg <> Some (3, set_outbuf c (lit "ok" ++ msg)).
Proof.
  cbv zeta. split; [reflexivity|].
  intros H. inversion H.
Qed.

Lemma client_send_appends_witness :
  client_send 2 (bound [] (lit "ok") false) (replicate 200 "x"%byte)
  = Some (200, set_outbuf (bound [] (lit "ok") false)
                 (lit "ok" ++ replicate 200 "x"%byte)).
Proof.
  apply (proj1 (client_send_appends (bound [] (lit "ok") false)
                  (replicate 200 "x"%byte)
                  ltac:(apply Forall_replicate; discriminate)
                  ltac:(vm_compute; reflexivity))).
  lia.
Defined.

(** ** Filters *)

Import Query QuerySpec.

Lemma query_filter_id_sanitized_witness :
  filters (query_filter query_tracks_new 3%nat
             (Some (lit "1, 2); DROP TABLE tracks; --,3"))) !! 3%nat
    = Some (Some (lit "1,2,3")) /\
  build_filters (query_filter query_tracks_new 3%nat
                   (Some (lit "1, 2); DROP TABLE tracks; --,3")))
    = lit "WHERE tracks.artist IN (1,2,3)".
Proof.
  split; [|reflexivity].
  apply (proj1 query_filter_id_sanitized query_tracks_new 3%nat
           (lit "1, 2); DROP TABLE tracks; --,3")); reflexivity.
Defined.

End Scenarios.

(** * Further properties of the session cycle *)

Module ClientCycleSpec.

Import Client ClientSpec ClientFlush.
Local Open Scope block_scope.

Section Cycle.

Context {handle : Type} (protocols : list (protocol_t handle)).

Implicit Types (c client : client_t handle) (p : protocol_t handle)
  (io : io_t) (t : list (call_t handle)).

Lemma read_data_fatal (r : read_t) c :
  rd_n r < 0 -> rd_errno r <> EWOULDBLOCK -> read_data r c = (-1, c).
Proof.
  intros Hn He. unfold read_data.
  destruct (Z.eqb_spec (rd_n r) 0); [lia|].
  destruct (Z.ltb_spec (rd_n r) 0); [|lia].
  destruct (Z.eqb_spec (rd_errno r) EWOULDBLOCK); [contradiction|reflexivity].
Qed.

(** X1: a read that returns 0, or fails with anything but would-block,
    ends the cycle of any session, bound or not: the result is -1, the
    session is as it was and no plug-in call is made. *)
Theorem client_process_read_ends io c :
  rd_n (io_read io) = 0 \/
    (rd_n (io_read io) < 0 /\ rd_errno (io_read io) <> EWOULDBLOCK) ->
  client_process protocols io c = (-1, c, []).
Proof.
  intros H.
  assert (Hr : read_data (io_read io) c = (-1, c)).
  { destruct H as [H|[H1 H2]];
      [apply read_data_eof, H|apply read_data_fatal; assumption]. }
  unfold client_process, seq_block, block_read. rewrite Hr. reflexivity.
Qed.

Lemma read_data_frame (r : read_t) c :
  outbuf (snd (read_data r c)) = outbuf c /\
  self (snd (read_data r c)) = self c /\
  feed (snd (read_data r c)) = feed c.
Proof.
  unfold read_data.
  repeat match goal with |- context [if ?b then _ else _] => destruct b end;
    auto.
Qed.

(** X2: on a bound session with output pending, a write that fails with
    anything but would-block ends the cycle with -1 before process or
    feed: no plug-in call is made, the output buffer is untouched and
    the bytes just read stay in the input buffer. *)
Theorem client_process_write_fails io c p :
  protocol c = Some p ->
  0 <= fst (read_data (io_read io) c) ->
  outbuf c <> [] ->
  wr_n (io_write io) < 0 ->
  wr_errno (io_write io) <> EWOULDBLOCK ->
  client_process protocols io c = (-1, snd (read_data (io_read io) c), []) /\
  outbuf (snd (read_data (io_read io) c)) = outbuf c.
Proof.
  intros Hp Hr Hout Hn He.
  pose proof (read_data_protocol (io_read io) c) as Hp1.
  destruct (read_data_frame (io_read io) c) as (Ho1 & _ & _).
  split; [|exact Ho1].
  unfold client_process, seq_block, block_read.
  destruct (read_data (io_read io) c) as [r c1]. simpl in *.
  destruct (Z.ltb_spec r 0); [lia|].
  unfold block_bind. rewrite Hp1, Hp.
  unfold block_flush, string_size. rewrite Ho1.
  destruct (Z.gtb_spec (Z.of_nat (length (outbuf c))) 0) as [_|Hle].
  - unfold write_data.
    destruct (Z.ltb_spec (wr_n (io_write io)) 0); [|lia].
    destruct (Z.eqb_spec (wr_errno (io_write io)) EWOULDBLOCK);
      [contradiction|reflexivity].
  - destruct (outbuf c); [congruence|simpl in Hle; lia].
Qed.

(** X3: a negative result of process is what the cycle returns; nothing
    is removed from the input buffer, and what the call queued stays in
    the output buffer. *)
Theorem client_process_process_fails io c c2 p r e :
  reaches_input protocols io c = Some c2 ->
  protocol c2 = Some p ->
  inbuf c2 <> [] ->
  process p (self c2) (inbuf c2) (string_size (inbuf c2)) = (r, e) ->
  r < 0 ->
  let '(result, c', t) := client_process protocols io c in
  result = r /\ inbuf c' = inbuf c2 /\ outbuf c' = outbuf c2 ++ eff_out e /\
  exists t0, t = t0 ++ [CallProcess p (inbuf c2)].
Proof.
  intros Hre Hp2 Hne Hpr Hr.
  destruct (client_process_reaches _ _ _ _ Hre) as (t0 & _ & _ & ->).
  unfold block_input, string_string. rewrite Hp2.
  destruct (Z.gtb_spec (string_size (inbuf c2)) 0) as [_|Hle].
  - rewrite Hpr. destruct (Z.ltb_spec r 0); [|lia].
    simpl. eauto.
  - unfold string_size in Hle. destruct (inbuf c2); [congruence|].
    simpl in Hle. lia.
Qed.




(** A cycle on a bound session makes at most one plug-in call, a
    process or a feed call of the bound protocol. *)
Lemma client_process_bound_calls io c p :
  protocol c = Some p ->
  Forall (fun e => (exists buf, e = CallProcess p buf) \/ e = CallFeed p)
         (snd (client_process protocols io c)) /\
  (length (snd (client_process protocols io c)) <= 1)%nat.
Proof.
  intros Hp.
  destruct (reaches_input protocols io c) as [c2|] eqn:Hre.
  - destruct (reaches_input_bound _ _ _ _ _ Hp Hre) as (Hp2 & _ & _ & _ & ->).
    destruct (block_input c2) as [[f c'] t] eqn:Hbi.
    destruct (block_input_calls _ _ _ _ _ Hp2 Hbi)
      as [Ht|[(Ht & _)|(Ht & _)]]; subst t; destruct f; simpl;
      (split; [|lia]); repeat apply Forall_cons; try apply Forall_nil;
      eauto.
  - unfold reaches_input in Hre. unfold client_process.
    revert Hre. unfold seq_block, block_read.
    pose proof (read_data_protocol (io_read io) c) as Hp1.
    destruct (read_data (io_read io) c) as [r c1]. simpl in Hp1.
    destruct (r <? 0); [intros _; simpl; split; [constructor|lia]|].
    unfold block_bind. rewrite Hp1, Hp.
    destruct (block_flush (io_write io) c1) as [[f3 c3] t3] eqn:Hfl.
    destruct (block_flush_frame _ _ _ _ _ Hfl) as (_ & _ & _ & _ & ->).
    destruct f3; [|discriminate].
    intros _; simpl; split; [constructor|lia].
Qed.

(** X5: once a session is bound to [p], every plug-in call of every
    later cycle is a process or a feed call of [p]: no detection runs
    again, no other descriptor is called, and a cycle makes at most one
    call. *)
Theorem client_run_bound_calls (ios : list io_t) c p :
  protocol c = Some p ->
  Forall (fun e => (exists buf, e = CallProcess p buf) \/ e = CallFeed p)
         (snd (client_run protocols ios c)) /\
  (length (snd (client_run protocols ios c)) <= length ios)%nat.
Proof.
  revert c. induction ios as [|io ios IH]; intros c Hp; simpl.
  - split; [constructor|lia].
  - destruct (client_process_bound_calls io c p Hp) as [Hc Hl].
    destruct (client_process_bound_stable protocols io c p Hp) as [Hp1 _].
    destruct (client_process protocols io c) as [[r c1] t1]. simpl in *.
    destruct (r <? 0); simpl; [split; [exact Hc|lia]|].
    destruct (IH c1 Hp1) as [Hc2 Hl2].
    destruct (client_run protocols ios c1) as [c2 t2]. simpl in *.
    split; [apply Forall_app; auto|rewrite length_app; lia].
Qed.

Lemma block_flush_next (w : write_t) c :
  0 <= wr_n w \/ wr_errno w = EWOULDBLOCK ->
  exists c', block_flush w c = (Next, c', []).
Proof.
  intros H. unfold block_flush, write_data.
  destruct (string_size (outbuf c) >? 0); [|eauto].
  destruct (Z.ltb_spec (wr_n w) 0) as [Hlt|Hge]; [|simpl; eauto].
  destruct H as [H|H]; [lia|]. rewrite H, Z.eqb_refl. simpl. eauto.
Qed.

(** X6: detection consumes nothing.  In the cycle that binds a session,
    when input is there and the write does not fail, the calls are the
    probes up to the matching descriptor, its open, and its process on
    the very bytes the probes were given. *)
Theorem client_process_binds_and_processes io c pre p post :
  protocol c = None ->
  0 <= fst (read_data (io_read io) c) ->
  let buf := inbuf (snd (read_data (io_read io) c)) in
  buf <> [] ->
  protocols = pre ++ p :: post ->
  Forall (fun q => detect q buf (Z.of_nat (length buf)) <> 1) pre ->
  detect p buf (Z.of_nat (length buf)) = 1 ->
  0 <= wr_n (io_write io) \/ wr_errno (io_write io) = EWOULDBLOCK ->
  snd (client_process protocols io c) =
    map (fun q => CallDetect q buf) (pre ++ [p])
      ++ [CallOpen p; CallProcess p buf].
Proof.
  intros Hunb Hread buf Hne Hsplit Hpre Hm Hw. subst buf.
  pose proof (read_data_protocol (io_read io) c) as Hp1.
  unfold client_process. unfold seq_block at 1. unfold block_read.
  destruct (read_data (io_read io) c) as [r c1]. simpl in *.
  rewrite Hunb in Hp1.
  destruct (Z.ltb_spec r 0); [lia|].
  unfold seq_block at 1. unfold block_bind, find_protocol, string_string.
  rewrite Hp1, Hsplit, (find_protocol_from_first _ _ _ _ Hpre Hm).
  simpl protocol. cbv iota beta.
  set (c2 := apply_effect _ _).
  unfold seq_block.
  destruct (block_flush_next (io_write io) c2 Hw) as (c3 & Hfl).
  rewrite Hfl.
  destruct (block_flush_frame _ _ _ _ _ Hfl) as (Hp3 & Hi3 & _).
  assert (Hp3' : protocol c3 = Some p) by (rewrite Hp3; reflexivity).
  assert (Hi3' : inbuf c3 = inbuf c1) by (rewrite Hi3; reflexivity).
  destruct (block_input c3) as [[f4 c4] t4] eqn:Hbi.
  destruct (block_input_calls _ _ _ _ _ Hp3' Hbi)
    as [Ht|[(_ & _ & Hi & _)|(_ & _ & _ & Hi & _)]];
    try (rewrite Hi3' in Hi; contradiction).
  subst t4. rewrite Hi3'.
  destruct f4; simpl; rewrite <- app_assoc; reflexivity.
Qed.

(** X7: a cycle on an unbound session whose read would block still
    runs detection, on the input buffered so far (none on a fresh
    session); when no descriptor matches that, the session is closed:
    the cycle returns -1 after one probe of each descriptor. *)
Theorem client_process_unbound_would_block io c :
  protocol c = None ->
  rd_n (io_read io) < 0 ->
  rd_errno (io_read io) = EWOULDBLOCK ->
  Forall (fun q => detect q (inbuf c) (Z.of_nat (length (inbuf c))) <> 1)
         protocols ->
  client_process protocols io c =
    (-1, c, map (fun q => CallDetect q (inbuf c)) protocols).
Proof.
  intros Hunb Hn He Hnone.
  unfold client_process. unfold seq_block at 1. unfold block_read.
  rewrite (read_data_would_block _ c Hn He). simpl.
  unfold seq_block at 1. unfold block_bind, find_protocol, string_string.
  rewrite Hunb, (find_protocol_from_none _ _ Hnone). simpl.
  destruct c; simpl in *; subst; reflexivity.
Qed.

(** X8: output still pending holds feed back.  On a bound session with
    no input, a cycle whose read would block and whose write would
    block or takes only part of the output returns 0 and makes no
    plug-in call, whatever the feed flag; the output buffer keeps the
    bytes not taken. *)
Theorem client_process_output_pending io c p :
  protocol c = Some p ->
  inbuf c = [] ->
  rd_n (io_read io) < 0 ->
  rd_errno (io_read io) = EWOULDBLOCK ->
  outbuf c <> [] ->
  (wr_n (io_write io) < 0 -> wr_errno (io_write io) = EWOULDBLOCK ->
     client_process protocols io c = (0, c, [])) /\
  (0 <= wr_n (io_write io) < Z.of_nat (length (outbuf c)) ->
     client_process protocols io c =
       (0, set_outbuf c (drop (Z.to_nat (wr_n (io_write io))) (outbuf c)),
        [])).
Proof.
  intros Hp Hin Hn He Hout.
  assert (Hpos : (string_size (outbuf c) >? 0) = true).
  { unfold string_size. destruct (outbuf c); [congruence|reflexivity]. }
  assert (Hcp : forall c3,
    write_data (io_write io) c = (0, c3) ->
    protocol c3 = Some p -> inbuf c3 = [] -> outbuf c3 <> [] ->
    client_process protocols io c = (0, c3, [])).
  { intros c3 Hwd Hp3 Hi3 Ho3.
    unfold client_process, seq_block, block_read.
    rewrite (read_data_would_block _ c Hn He). simpl.
    unfold block_bind. rewrite Hp.
    unfold block_flush. rewrite Hpos, Hwd. simpl.
    unfold block_input, string_size. rewrite Hp3, Hi3. simpl.
    destruct (outbuf c3); [congruence|].
    rewrite andb_false_r. reflexivity. }
  split.
  - intros Hw Hwe. apply Hcp; auto.
    apply write_data_would_block; assumption.
  - intros [Hw0 Hw1]. apply Hcp; auto.
    + apply write_data_partial. exact Hw0.
    + simpl. intros Hnil. apply (f_equal length) in Hnil.
      rewrite length_drop in Hnil. simpl in Hnil. lia.
Qed.

(** X11: [client_process] returns 0 or a negative value, never the byte
    count [read_data] hands it, and it returns 0 only from its end,
    after the read, bind and flush blocks all let the cycle go on. *)
Theorem client_process_result io c :
  fst (fst (client_process protocols io c)) <= 0 /\
  (fst (fst (client_process protocols io c)) = 0 ->
   exists c2, reaches_input protocols io c = Some c2).
Proof.
  destruct (reaches_input protocols io c) as [c2|] eqn:Hre.
  - destruct (client_process_reaches _ _ _ _ Hre) as (t0 & _ & _ & ->).
    split; [|eauto].
    unfold block_input.
    destruct (protocol c2) as [p|]; [|simpl; lia].
    destruct (string_size (inbuf c2) >? 0).
    + destruct (process _ _ _ _) as [r e].
      destruct (Z.ltb_spec r 0); simpl; lia.
    + destruct (feed c2 && _); simpl; lia.
  - assert (H : fst (fst (client_process protocols io c)) < 0).
    { revert Hre. unfold reaches_input, client_process, seq_block, block_read.
      destruct (read_data (io_read io) c) as [r c1].
      destruct (Z.ltb_spec r 0); [intros _; simpl; lia|].
      unfold block_bind, find_protocol.
      destruct (protocol c1).
      - unfold block_flush, write_data.
        destruct (string_size (outbuf c1) >? 0); [|discriminate].
        destruct (wr_n (io_write io) <? 0); [|discriminate].
        destruct (wr_errno (io_write io) =? EWOULDBLOCK); [discriminate|].
        intros _; simpl; lia.
      - destruct (find_protocol_from protocols (string_string (inbuf c1)))
          as [[p0|] t0]; simpl; [|intros _; lia].
        unfold block_flush, write_data.
        destruct (string_size _ >? 0); [|discriminate].
        destruct (wr_n (io_write io) <? 0); [|discriminate].
        destruct (wr_errno (io_write io) =? EWOULDBLOCK); [discriminate|].
        intros _; simpl; lia. }
    split; [lia|]. intros H0. lia.
Qed.

End Cycle.

(** *** Flushing over several cycles *)

Section Flush.

Context {handle : Type}.

Implicit Types (c : client_t handle).

(** X9: what a run of writes sends, followed by what it leaves in the
    output buffer, is the output buffer it started with: no byte is
    lost, repeated or moved, whatever the writes return.  When the
    writes do not fail and together take at least the length of the
    buffer, the buffer ends empty and all of it was sent. *)
Theorem flush_run_conserves (ws : list write_t) c :
  fst (flush_run ws c) ++ outbuf (snd (flush_run ws c)) = outbuf c /\
  inbuf (snd (flush_run ws c)) = inbuf c /\
  (Forall (fun w => 0 <= wr_n w) ws ->
   Z.of_nat (length (outbuf c)) <= foldr (fun w s => wr_n w + s) 0 ws ->
   outbuf (snd (flush_run ws c)) = [] /\ fst (flush_run ws c) = outbuf c).
Proof.
  revert c. induction ws as [|w ws IH]; intros c; simpl.
  - split; [reflexivity|]. split; [reflexivity|].
    intros _ Hlen.
    destruct (outbuf c); [split; reflexivity|simpl in Hlen; lia].
  - unfold block_flush, written, write_data, string_string,
      string_remove_front, string_size.
    destruct (Z.gtb_spec (Z.of_nat (length (outbuf c))) 0) as [Hgt|Hle].
    + destruct (Z.ltb_spec (wr_n w) 0) as [Hlt|Hge].
      * destruct (wr_errno w =? EWOULDBLOCK); simpl.
        -- destruct (IH c) as (H1 & H2 & H3).
           destruct (flush_run ws c) as [more c2]. simpl in *.
           split; [exact H1|]. split; [exact H2|].
           intros Hall; inversion Hall; subst; lia.
        -- split; [reflexivity|]. split; [reflexivity|].
           intros Hall; inversion Hall; subst; lia.
      * simpl.
        destruct (IH (set_outbuf c (drop (Z.to_nat (wr_n w)) (outbuf c))))
          as (H1 & H2 & H3).
        destruct (flush_run ws _) as [more c2]. simpl in *.
        split; [rewrite <- app_assoc, H1; apply take_drop|].
        split; [exact H2|].
        intros Hall Hlen. inversion Hall as [|? ? H4 H5]; subst.
        destruct H3 as [H3a H3b]; [assumption| |].
        { rewrite length_drop.
          assert (Hpos : 0 <= foldr (fun w s => wr_n w + s) 0 ws).
          { clear -H5. induction H5; simpl; lia. }
          lia. }
        split; [exact H3a|].
        rewrite H3b. apply take_drop.
    + destruct (IH c) as (H1 & H2 & H3).
      destruct (flush_run ws c) as [more c2]. simpl in *.
      split; [exact H1|]. split; [exact H2|].
      intros Hall Hlen.
      assert (Hnil : outbuf c = [])
        by (destruct (outbuf c); [reflexivity|simpl in Hle; lia]).
      rewrite Hnil in *. simpl in H1.
      destruct more; [|discriminate]. simpl in H1. auto.
Qed.

Lemma c_str_append_nul (msg : list byte) : c_str (msg ++ [x00]) = c_str msg.
Proof.
  induction msg as [|b msg IH]; simpl; [reflexivity|].
  destruct (Byte.eqb b x00); [reflexivity|]. rewrite IH. reflexivity.
Qed.

(** X10: for any formatted message shorter than [INT_MAX],
    [client_send] returns the length of the whole message and appends
    its bytes up to the first NUL, all of them when there is none. *)
Theorem client_send_c_string c (msg : list byte) (fuel : nat) :
  Z.of_nat (length msg) < INT_MAX ->
  (2 <= fuel)%nat ->
  client_send fuel c msg =
    Some (Z.of_nat (length msg), set_outbuf c (outbuf c ++ c_str msg)).
Proof.
  intros Hmax Hfuel.
  assert (Hloop : client_send_loop fuel msg 128 =
            Some (Z.of_nat (length msg), msg ++ [x00])).
  { induction Hfuel as [|fuel _ IH].
    - apply client_send_loop_two, Hmax.
    - apply client_send_loop_more, IH. }
  unfold client_send, string_append. rewrite Hloop, c_str_append_nul.
  reflexivity.
Qed.

End Flush.

End ClientCycleSpec.

(** * Further properties of the queries *)

Module QuerySortSpec.

Import Query QuerySpec QuerySort.

Lemma byte_eqb_eq (x y : byte) : Byte.eqb x y = true <-> x = y.
Proof. split; [apply Byte.byte_dec_bl|apply Byte.byte_dec_lb]. Qed.

Lemma byte_eqb_neq (x y : byte) : Byte.eqb x y = false <-> x <> y.
Proof.
  split.
  - intros H Heq. apply byte_eqb_eq in Heq. congruence.
  - intros H. destruct (Byte.eqb x y) eqn:E; [|reflexivity].
    apply byte_eqb_eq in E. contradiction.
Qed.

(** [strcmp] finds two C strings equal exactly when their contents
    are. *)
Lemma strcmp_eq_spec (a b : list byte) :
  strcmp_eq a b = true <-> c_str a = c_str b.
Proof.
  revert b. induction a as [|x a IH]; intros [|y b]; simpl.
  - tauto.
  - destruct (Byte.eqb y x00); split; congruence.
  - destruct (Byte.eqb x x00); split; congruence.
  - destruct (Byte.eqb x y) eqn:Exy.
    + apply byte_eqb_eq in Exy. subst y.
      destruct (Byte.eqb x x00); [tauto|].
      rewrite IH. split; [congruence|]. intros H; inversion H; auto.
    + apply byte_eqb_neq in Exy.
      destruct (Byte.eqb x x00) eqn:Ex; destruct (Byte.eqb y x00) eqn:Ey;
        split; try discriminate; try congruence.
      apply byte_eqb_eq in Ex, Ey. congruence.
Qed.

Lemma strcmp_eq_ext (a a' b : list byte) :
  c_str a = c_str a' -> strcmp_eq a b = strcmp_eq a' b.
Proof.
  intros H.
  destruct (strcmp_eq a b) eqn:E1; destruct (strcmp_eq a' b) eqn:E2;
    try reflexivity.
  - apply strcmp_eq_spec in E1. rewrite H in E1.
    apply strcmp_eq_spec in E1. congruence.
  - apply strcmp_eq_spec in E2. rewrite <- H in E2.
    apply strcmp_eq_spec in E2. congruence.
Qed.

Lemma c_str_idem (a : list byte) : c_str (c_str a) = c_str a.
Proof.
  induction a as [|x a IH]; simpl; [reflexivity|].
  destruct (Byte.eqb x x00) eqn:E; simpl; [reflexivity|].
  rewrite E, IH. reflexivity.
Qed.

Lemma c_str_nul_free (a : list byte) :
  Forall (fun b => b <> x00) a -> c_str a = a.
Proof.
  induction 1 as [|x a Hx _ IH]; simpl; [reflexivity|].
  apply byte_eqb_neq in Hx. rewrite Hx, IH. reflexivity.
Qed.

Lemma loop_ext (names : list (list byte)) (k : nat) (a a' : list byte) :
  c_str a = c_str a' ->
  query_field_from_string_loop names k a =
  query_field_from_string_loop names k a'.
Proof.
  intros H. revert k. induction names as [|nm names IH]; intros k; simpl;
    [reflexivity|].
  rewrite (strcmp_eq_ext a a' nm H), IH. reflexivity.
Qed.

(** The result depends on the content of the C string only. *)
Lemma query_field_from_string_ext (a a' : list byte) :
  c_str a = c_str a' ->
  query_field_from_string a = query_field_from_string a'.
Proof.
  intros H. unfold query_field_from_string.
  rewrite (loop_ext _ _ a a' H), !(strcmp_eq_ext a a' _ H). reflexivity.
Qed.

Lemma loop_some (names : list (list byte)) (k i : nat) (s : list byte) :
  query_field_from_string_loop names k s = Some i ->
  (k <= i < k + length names)%nat /\
  exists nm, names !! (i - k)%nat = Some nm /\ c_str s = c_str nm.
Proof.
  revert k. induction names as [|nm names IH]; intros k; simpl;
    [discriminate|].
  destruct (strcmp_eq s nm) eqn:E.
  - intros H; inversion H; subst. split; [lia|].
    exists nm. rewrite Nat.sub_diag. split; [reflexivity|].
    apply strcmp_eq_spec, E.
  - intros H. apply IH in H as (Hr & nm' & Hnm & Hs). split; [lia|].
    exists nm'. split; [|exact Hs].
    replace (i - k)%nat with (S (i - S k)) by lia. exact Hnm.
Qed.

Lemma field_names_plain :
  Forall (fun nm => c_str nm = nm) field_names.
Proof. repeat constructor. Qed.

Lemma field_names_round (i : nat) (nm : list byte) :
  (1 <= i)%nat -> field_names !! i = Some nm ->
  query_field_from_string nm = i.
Proof.
  intros Hi H.
  do 10 (destruct i as [|i]; [first [lia | inversion H; subst; reflexivity]|]).
  discriminate.
Qed.

Lemma loop_field (s : list byte) (i : nat) :
  query_field_from_string_loop (drop 1 field_names) 1 s = Some i ->
  (1 <= i <= 9)%nat /\ field_names !! i = Some (c_str s).
Proof.
  intros H. apply loop_some in H as (Hr & nm & Hnm & Hs).
  simpl in Hr. split; [lia|].
  assert (Hnm' : field_names !! i = Some nm).
  { replace i with (S (i - 1)) by lia. exact Hnm. }
  rewrite Hs.
  pose proof (proj1 (Forall_lookup _ _) field_names_plain i nm Hnm') as Hp.
  simpl in Hp. rewrite Hp. exact Hnm'.
Qed.

(** X12: [query_field_from_string] maps a string to one of the fields 1
    to 9 exactly when it is that field's name, byte for byte; to
    [QUERY_FIELD_ALL] exactly for "all" and "search"; every other
    string, the empty one included, gives [QUERY_FIELD_NONE], and no
    value above [QUERY_FIELD_ALL] is ever returned. *)
Theorem query_field_from_string_names (s : list byte) :
  (forall i : nat, (1 <= i <= 9)%nat ->
     (query_field_from_string s = i <-> field_names !! i = Some (c_str s))) /\
  (query_field_from_string s = QUERY_FIELD_ALL <->
     c_str s = lit "all" \/ c_str s = lit "search") /\
  (query_field_from_string s <= QUERY_FIELD_ALL)%nat /\
  query_field_from_string [] = QUERY_FIELD_NONE.
Proof.
  split; [|split; [|split]].
  - intros i Hi. split.
    + unfold query_field_from_string.
      destruct (query_field_from_string_loop (drop 1 field_names) 1 s)
        as [j|] eqn:E.
      * intros ->. apply loop_field, E.
      * unfold QUERY_FIELD_ALL, QUERY_FIELD_NONE.
        destruct (_ || _); intros <-; lia.
    + intros H. rewrite <- (field_names_round i (c_str s)); [|lia|exact H].
      apply query_field_from_string_ext. symmetry. apply c_str_idem.
  - split.
    + unfold query_field_from_string.
      destruct (query_field_from_string_loop (drop 1 field_names) 1 s)
        as [j|] eqn:E.
      * intros ->. apply loop_field in E as [E _]. unfold QUERY_FIELD_ALL in E. lia.
      * destruct (strcmp_eq s (lit "all")) eqn:E1.
        { intros _. left. apply strcmp_eq_spec in E1. exact E1. }
        destruct (strcmp_eq s (lit "search")) eqn:E2.
        { intros _. right. apply strcmp_eq_spec in E2. exact E2. }
        simpl. discriminate.
    + intros [H|H].
      * rewrite (query_field_from_string_ext s (lit "all")); [reflexivity|].
        rewrite H. reflexivity.
      * rewrite (query_field_from_string_ext s (lit "search")); [reflexivity|].
        rewrite H. reflexivity.
  - unfold query_field_from_string.
    destruct (query_field_from_string_loop (drop 1 field_names) 1 s)
      as [j|] eqn:E.
    + apply loop_field in E as [E _]. unfold QUERY_FIELD_ALL. lia.
    + unfold QUERY_FIELD_ALL, QUERY_FIELD_NONE. destruct (_ || _); lia.
  - reflexivity.
Qed.

(** *** Sorting *)

Lemma query_sort_frame (q : query_t) (field : query_field_t) (d : bool) :
  format (query_sort q field d) = format q /\
  filters (query_sort q field d) = filters q /\
  limit (query_sort q field d) = limit q /\
  offset (query_sort q field d) = offset q.
Proof.
  unfold query_sort.
  destruct (default None (maps (format q) !! field)); simpl; auto.
Qed.

Lemma order_clause_nonempty (m : list byte) (d : bool) :
  order_clause m d <> [].
Proof.
  unfold order_clause. intros H. apply (f_equal length) in H.
  rewrite !length_app in H. simpl in H. lia.
Qed.

Lemma query_sort_order (q : query_t) (it : query_field_t * bool) :
  order (query_sort q (fst it) (snd it)) =
    match item_clause (format q) it with
    | None => order q
    | Some cl =>
        match order q with
        | [] => cl
        | _ :: _ => order q ++ lit ", " ++ cl
        end
    end.
Proof.
  unfold query_sort, item_clause.
  destruct (default None (maps (format q) !! fst it)) as [m|]; [|reflexivity].
  simpl. unfold string_size, string_append.
  destruct (order q) as [|b o]; [reflexivity|].
  simpl length.
  destruct (Z.gtb_spec (Z.of_nat (S (length o))) 0); [|lia].
  rewrite <- app_assoc. reflexivity.
Qed.

Lemma sorts_order_nonempty (items : list (query_field_t * bool)) (q : query_t) :
  order q <> [] ->
  order (foldl (fun q it => query_sort q (fst it) (snd it)) q items) =
    order q ++ concat (map (fun cl => lit ", " ++ cl)
                           (omap (item_clause (format q)) items)).
Proof.
  revert q. induction items as [|it items IH]; intros q Hne; simpl.
  - rewrite app_nil_r. reflexivity.
  - destruct (query_sort_frame q (fst it) (snd it)) as (Hf & _).
    pose proof (query_sort_order q it) as Ho.
    destruct (item_clause (format q) it) as [cl|] eqn:Hcl.
    + destruct (order q) as [|b o] eqn:Hoq; [congruence|].
      rewrite IH by (rewrite Ho; discriminate).
      rewrite Hf, Ho. cbn [map concat].
      rewrite <- ?app_assoc. reflexivity.
    + rewrite IH by (rewrite Ho; exact Hne).
      rewrite Hf, Ho. reflexivity.
Qed.

Lemma join_clauses_cons (cl : list byte) (cs : list (list byte)) :
  join_clauses (cl :: cs) = cl ++ concat (map (fun c => lit ", " ++ c) cs).
Proof.
  revert cl. induction cs as [|c cs IH]; intros cl.
  - simpl. rewrite app_nil_r. reflexivity.
  - change (join_clauses (cl :: c :: cs))
      with (cl ++ lit ", " ++ join_clauses (c :: cs)).
    rewrite IH. cbn [map concat]. rewrite <- ?app_assoc. reflexivity.
Qed.

(** X13: starting from an empty sort order, a series of [query_sort]
    calls leaves as order the clauses of the calls whose field the
    format of the query has a column for, in call order, separated by
    [", "] with no separator in front or behind; calls for other fields
    change nothing, and no call touches the filters, the limit or the
    offset. *)
Theorem query_sort_builds_order
    (q : query_t) (items : list (query_field_t * bool)) :
  order q = [] ->
  let q' := foldl (fun q it => query_sort q (fst it) (snd it)) q items in
  order q' = join_clauses (omap (item_clause (format q)) items) /\
  format q' = format q /\ filters q' = filters q /\
  limit q' = limit q /\ offset q' = offset q.
Proof.
  intros Hempty. cbv zeta. split.
  - revert q Hempty. induction items as [|it items IH]; intros q Hempty; simpl.
    + exact Hempty.
    + destruct (query_sort_frame q (fst it) (snd it)) as (Hf & _).
      pose proof (query_sort_order q it) as Ho.
      destruct (item_clause (format q) it) as [cl|] eqn:Hcl.
      * rewrite Hempty in Ho.
        rewrite sorts_order_nonempty
          by (rewrite Ho; unfold item_clause in Hcl;
              destruct (default None _); inversion Hcl;
              apply order_clause_nonempty).
        rewrite Hf, Ho, join_clauses_cons. reflexivity.
      * rewrite IH by (rewrite Ho; exact Hempty).
        rewrite Hf. reflexivity.
  - clear Hempty. revert q. induction items as [|it items IH]; intros q; simpl.
    + auto.
    + destruct (query_sort_frame q (fst it) (snd it)) as (Hf & Hfi & Hl & Ho).
      destruct (IH (query_sort q (fst it) (snd it))) as (H1 & H2 & H3 & H4).
      repeat split; congruence.
Qed.

(** *** Sort lists *)

Lemma scan_name_app (nm tail : list byte) :
  Forall (fun b => b <> ","%byte /\ b <> x00) nm ->
  after_name tail ->
  scan_name (nm ++ tail) = (nm, tail).
Proof.
  intros Hnm Htail. induction Hnm as [|b nm [Hb1 Hb2] _ IH]; simpl.
  - destruct Htail as [->|(r & ->)]; reflexivity.
  - apply byte_eqb_neq in Hb1, Hb2. rewrite Hb1, Hb2, IH. reflexivity.
Qed.

Lemma scan_name_split (s : list byte) :
  s = fst (scan_name s) ++ snd (scan_name s).
Proof.
  induction s as [|c s IH]; simpl; [reflexivity|].
  destruct (Byte.eqb c "," || Byte.eqb c x00); [reflexivity|].
  destruct (scan_name s) as [nm e]. simpl in *. congruence.
Qed.

(** One turn of the loop on a list that starts with the item [nm],
    descending or not. *)
Lemma loop_item (fuel : nat) (q : query_t) (nm tail : list byte) (d : bool) :
  plain_name nm ->
  after_name tail ->
  query_sort_from_string_loop (S fuel) q (sort_item (nm, d) ++ tail) =
    if Nat.eqb (query_field_from_string nm) QUERY_FIELD_NONE
    then Some (-1, q)
    else query_sort_from_string_loop fuel
           (query_sort q (query_field_from_string nm) d)
           (match tail with [] => [] | _ :: r => r end).
Proof.
  intros [(c & r & -> & Hc1 & Hc2) Hplain] Htail.
  apply byte_eqb_neq in Hc1, Hc2.
  assert (Hend : forall e : list byte, after_name e ->
            match e with
            | c' :: rest2 => if Byte.eqb c' "," then rest2 else e
            | [] => []
            end = match e with [] => [] | _ :: r0 => r0 end).
  { intros e [->|(r0 & ->)]; reflexivity. }
  unfold sort_item. destruct d; cbn [fst snd].
  - change ((lit "-" ++ c :: r) ++ tail) with ("-"%byte :: ((c :: r) ++ tail)).
    cbn [query_sort_from_string_loop].
    change (Byte.eqb "-" x00) with false.
    change (Byte.eqb "-" "-") with true. cbv iota beta.
    rewrite (scan_name_app _ _ Hplain Htail), (Hend _ Htail). reflexivity.
  - change (([] ++ c :: r) ++ tail) with (c :: (r ++ tail)).
    cbn [query_sort_from_string_loop]. rewrite Hc2, Hc1.
    change (c :: r ++ tail) with ((c :: r) ++ tail).
    rewrite (scan_name_app _ _ Hplain Htail), (Hend _ Htail). reflexivity.
Qed.

(** A name that [query_field_from_string] knows is a plain name. *)
Lemma known_name_plain (nm : list byte) :
  query_field_from_string nm <> QUERY_FIELD_NONE ->
  Forall (fun b => b <> x00) nm ->
  plain_name nm.
Proof.
  intros Hf Hnul. pose proof (c_str_nul_free nm Hnul) as Hc.
  assert (Hin : In nm (drop 1 field_names ++ [lit "all"; lit "search"])).
  { revert Hf. unfold query_field_from_string.
    destruct (query_field_from_string_loop (drop 1 field_names) 1 nm)
      as [i|] eqn:E.
    - intros _. apply loop_field in E as [Hi E]. rewrite Hc in E.
      do 10 (destruct i as [|i];
             [first [lia | inversion E; subst; simpl; tauto]|]).
      lia.
    - destruct (strcmp_eq nm (lit "all")) eqn:E1.
      { apply strcmp_eq_spec in E1. rewrite Hc in E1. subst.
        intros _. simpl. tauto. }
      destruct (strcmp_eq nm (lit "search")) eqn:E2.
      { apply strcmp_eq_spec in E2. rewrite Hc in E2. subst.
        intros _. simpl. tauto. }
      simpl. intros H. contradiction. }
  simpl in Hin.
  repeat (destruct Hin as [<-|Hin];
          [split; [eexists _, _; split; [reflexivity|split; discriminate]
                  |repeat constructor; discriminate]|]).
  contradiction.
Qed.

Lemma plain_name_length (nm : list byte) :
  plain_name nm -> (1 <= length nm)%nat.
Proof. intros [(c & r & -> & _) _]. simpl. lia. Qed.

Lemma sort_string_cons2 (it it2 : list byte * bool)
    (rest : list (list byte * bool)) :
  sort_string (it :: it2 :: rest) =
    sort_item it ++ ","%byte :: sort_string (it2 :: rest).
Proof. reflexivity. Qed.

Lemma sort_string_length (items : list (list byte * bool)) :
  Forall (fun it => plain_name (fst it)) items ->
  (length items <= length (sort_string items))%nat.
Proof.
  induction 1 as [|it items Hit Hall IH]; [simpl; lia|].
  apply plain_name_length in Hit.
  destruct items as [|it2 rest].
  - simpl. unfold sort_item. rewrite length_app. lia.
  - rewrite sort_string_cons2, length_app. unfold sort_item at 1.
    rewrite length_app. simpl length in *. lia.
Qed.

Lemma loop_items (items : list (list byte * bool)) (q : query_t) (fuel : nat) :
  Forall (fun it => query_field_from_string (fst it) <> QUERY_FIELD_NONE /\
                    Forall (fun b => b <> x00) (fst it)) items ->
  (length items < fuel)%nat ->
  query_sort_from_string_loop fuel q (sort_string items) =
    Some (0, foldl (fun q it =>
                      query_sort q (query_field_from_string (fst it)) (snd it))
                   q items).
Proof.
  intros Hall. revert q fuel.
  induction Hall as [|[nm d] items [Hf Hnul] _ IH]; intros q fuel Hfuel.
  - destruct fuel; [simpl in Hfuel; lia|reflexivity].
  - destruct fuel as [|fuel]; [lia|].
    pose proof (known_name_plain nm Hf Hnul) as Hplain.
    apply Nat.eqb_neq in Hf. cbn [fst snd] in *.
    destruct items as [|it2 rest].
    + change (sort_string [(nm, d)]) with (sort_item (nm, d)).
      rewrite <- (app_nil_r (sort_item (nm, d))).
      rewrite (loop_item fuel q nm [] d Hplain (or_introl eq_refl)), Hf.
      simpl in Hfuel. destruct fuel; [lia|reflexivity].
    + rewrite sort_string_cons2.
      rewrite (loop_item fuel q nm _ d Hplain
                 (or_intror (ex_intro _ _ eq_refl))), Hf.
      rewrite IH by (simpl in *; lia). reflexivity.
Qed.

(** X14: a sort list written from known field names (each NUL-free, a
    minus sign in front for descending, commas between) is read back
    item by item: [query_sort_from_string] returns 0 and has made the
    [query_sort] call of every item, in order.  The empty list returns
    0 and changes nothing. *)
Theorem query_sort_from_string_reads
    (q : query_t) (items : list (list byte * bool)) :
  Forall (fun it => query_field_from_string (fst it) <> QUERY_FIELD_NONE /\
                    Forall (fun b => b <> x00) (fst it)) items ->
  query_sort_from_string q (sort_string items) =
    Some (0, foldl (fun q it =>
                      query_sort q (query_field_from_string (fst it)) (snd it))
                   q items).
Proof.
  intros Hall. unfold query_sort_from_string. apply loop_items; [exact Hall|].
  assert (Hplain : Forall (fun it => plain_name (fst it)) items).
  { eapply Forall_impl; [exact Hall|].
    intros it [Hf Hn]. apply known_name_plain; assumption. }
  pose proof (sort_string_length items Hplain). lia.
Qed.

Lemma sort_string_snoc (it : list byte * bool)
    (items : list (list byte * bool)) (bad : list byte * bool) :
  sort_string ((it :: items) ++ [bad]) =
    sort_item it ++ ","%byte :: sort_string (items ++ [bad]).
Proof. destruct items; reflexivity. Qed.

Lemma loop_items_bad (items : list (list byte * bool)) (q : query_t)
    (fuel : nat) (bad tail : list byte) (d : bool) :
  Forall (fun it => query_field_from_string (fst it) <> QUERY_FIELD_NONE /\
                    Forall (fun b => b <> x00) (fst it)) items ->
  plain_name bad ->
  query_field_from_string bad = QUERY_FIELD_NONE ->
  after_name tail ->
  (length items < fuel)%nat ->
  query_sort_from_string_loop fuel q
      (sort_string (items ++ [(bad, d)]) ++ tail) =
    Some (-1, foldl (fun q it =>
                       query_sort q (query_field_from_string (fst it)) (snd it))
                    q items).
Proof.
  intros Hall Hbad Hnone Htail. revert q fuel.
  induction Hall as [|[nm d'] items [Hf Hnul] _ IH]; intros q fuel Hfuel.
  - destruct fuel as [|fuel]; [simpl in Hfuel; lia|].
    change (sort_string ([] ++ [(bad, d)])) with (sort_item (bad, d)).
    rewrite (loop_item fuel q bad tail d Hbad Htail), Hnone. reflexivity.
  - destruct fuel as [|fuel]; [lia|].
    pose proof (known_name_plain nm Hf Hnul) as Hplain.
    apply Nat.eqb_neq in Hf. cbn [fst snd] in *.
    rewrite sort_string_snoc. rewrite <- app_assoc.
    change ((","%byte :: sort_string (items ++ [(bad, d)])) ++ tail)
      with (","%byte :: (sort_string (items ++ [(bad, d)]) ++ tail)).
    rewrite (loop_item fuel q nm _ d' Hplain
               (or_intror (ex_intro _ _ eq_refl))), Hf.
    rewrite IH by (simpl in *; lia). reflexivity.
Qed.

(** X15: a sort list stops at its first unknown name:
    [query_sort_from_string] returns -1 there, the items after it are
    not read, and the [query_sort] calls of the items before it have
    been made and stay. *)
Theorem query_sort_from_string_stops
    (q : query_t) (items : list (list byte * bool))
    (bad tail : list byte) (d : bool) :
  Forall (fun it => query_field_from_string (fst it) <> QUERY_FIELD_NONE /\
                    Forall (fun b => b <> x00) (fst it)) items ->
  plain_name bad ->
  query_field_from_string bad = QUERY_FIELD_NONE ->
  after_name tail ->
  query_sort_from_string q (sort_string (items ++ [(bad, d)]) ++ tail) =
    Some (-1, foldl (fun q it =>
                       query_sort q (query_field_from_string (fst it)) (snd it))
                    q items).
Proof.
  intros Hall Hbad Hnone Htail. unfold query_sort_from_string.
  apply loop_items_bad; try assumption.
  assert (Hplain : Forall (fun it => plain_name (fst it))
                          (items ++ [(bad, d)])).
  { apply Forall_app. split.
    - eapply Forall_impl; [exact Hall|].
      intros it [Hf Hn]. apply known_name_plain; assumption.
    - constructor; [exact Hbad|constructor]. }
  pose proof (sort_string_length _ Hplain) as Hlen.
  rewrite !length_app in *. simpl in Hlen. lia.
Qed.

(** X16: [query_sort_from_string] returns for every input, with 0 or
    -1, and whatever it returns it has changed nothing of the query
    but the sort order. *)
Theorem query_sort_from_string_total (q : query_t) (sort : list byte) :
  exists r q',
    query_sort_from_string q sort = Some (r, q') /\
    (r = 0 \/ r = -1) /\
    format q' = format q /\ filters q' = filters q /\
    limit q' = limit q /\ offset q' = offset q.
Proof.
  unfold query_sort_from_string.
  assert (H : forall fuel sort q, (length sort < fuel)%nat ->
    exists r q',
      query_sort_from_string_loop fuel q sort = Some (r, q') /\
      (r = 0 \/ r = -1) /\
      format q' = format q /\ filters q' = filters q /\
      limit q' = limit q /\ offset q' = offset q).
  { clear q sort. induction fuel as [|fuel IH]; intros sort q Hlen; [lia|].
    cbn [query_sort_from_string_loop].
    destruct sort as [|c rest0]; [exists 0, q; auto 10|].
    destruct (Byte.eqb c x00); [exists 0, q; auto 10|].
    set (ds := if Byte.eqb c "-" then (true, rest0) else (false, c :: rest0)).
    assert (Hds : (length (snd ds) <= length (c :: rest0))%nat).
    { subst ds. destruct (Byte.eqb c "-"); simpl; lia. }
    destruct ds as [d sort1]. simpl in Hds.
    pose proof (scan_name_split sort1) as Hsplit.
    destruct (scan_name sort1) as [nm e]. simpl in Hsplit.
    destruct (Nat.eqb (query_field_from_string nm) QUERY_FIELD_NONE) eqn:Ef;
      [exists (-1), q; auto 10|].
    assert (Hnm : nm <> []).
    { intros ->. discriminate Ef. }
    assert (He : (length e < length sort1)%nat).
    { apply (f_equal length) in Hsplit. rewrite length_app in Hsplit.
      destruct nm; [congruence|simpl in Hsplit; lia]. }
    set (sort2 := match e with
                  | c' :: rest2 => if Byte.eqb c' "," then rest2 else e
                  | [] => []
                  end).
    assert (H2 : (length sort2 <= length e)%nat).
    { subst sort2. destruct e as [|c' rest2]; [simpl; lia|].
      destruct (Byte.eqb c' ","); simpl; lia. }
    destruct (IH sort2 (query_sort q (query_field_from_string nm) d))
      as (r & q' & Hr & Hv & Hf1 & Hf2 & Hf3 & Hf4).
    { simpl in Hlen. lia. }
    destruct (query_sort_frame q (query_field_from_string nm) d)
      as (G1 & G2 & G3 & G4).
    exists r, q'. repeat split; try assumption; congruence. }
  apply H. lia.
Qed.

End QuerySortSpec.

(** * Further properties of the filters *)

Module QueryFilterSpec.

Import Query QuerySpec QuerySort QuerySortSpec.

Lemma foldl_pointwise {A B} (f g : A -> B -> A) (l : list B) (a : A) :
  (forall a b, f a b = g a b) -> foldl f a l = foldl g a l.
Proof.
  intros H. revert a. induction l as [|b l IH]; intros a; simpl;
    [reflexivity|].
  rewrite H. apply IH.
Qed.

(** X17: the SQL text of the WHERE clause does not depend on the text
    of a filter on a field that is not an id field: whatever string a
    client passes for it, [build_filters] writes the same bytes (the
    text only ever travels as a bound parameter). *)
Theorem build_filters_text_blind
    (q : query_t) (field : query_field_t) (f1 f2 : list byte) :
  default false (id_fields !! field) = false ->
  build_filters (query_filter q field (Some f1)) =
  build_filters (query_filter q field (Some f2)).
Proof.
  intros Hid. unfold query_filter. rewrite Hid. cbn [negb].
  unfold build_filters. do 2 f_equal.
  apply foldl_pointwise. intros [sql join] i.
  unfold build_filters_body. cbn [filters format set_filter].
  unfold query_field_t in *.
  destruct (decide (field = i)) as [->|Hne].
  - destruct (decide (i < length (filters q))%nat) as [Hlt|Hge].
    + rewrite !list_lookup_insert_eq by exact Hlt. cbn [default].
      rewrite Hid. reflexivity.
    + rewrite !list_insert_ge by lia. reflexivity.
  - rewrite !list_lookup_insert_ne by exact Hne. reflexivity.
Qed.

Lemma build_filters_body_cases (q : query_t) (i : nat)
    (sql : string_t) (join : bool) :
  (is_set (default None (filters q !! i))
     && is_set (default None (maps (format q) !! i)) = true /\
   exists x, build_filters_body q i (sql, join) =
               (sql ++ (if join then lit " AND " else lit "WHERE ") ++ x,
                true)) \/
  (is_set (default None (filters q !! i))
     && is_set (default None (maps (format q) !! i)) = false /\
   build_filters_body q i (sql, join) = (sql, join)).
Proof.
  unfold build_filters_body.
  destruct (default None (filters q !! i)) as [f|]; [|right; auto].
  destruct (default None (maps (format q) !! i)) as [m|]; [|right; auto].
  left. split; [reflexivity|].
  destruct (negb (default false (id_fields !! i))); destruct join;
    cbn [negb]; eexists; rewrite <- !app_assoc; reflexivity.
Qed.

Lemma build_fold (q : query_t) (idx : list nat) (sql : string_t) (join : bool) :
  match List.filter
          (fun i => is_set (default None (filters q !! i))
                    && is_set (default None (maps (format q) !! i))) idx with
  | [] => foldl (fun st i => build_filters_body q i st) (sql, join) idx
          = (sql, join)
  | _ :: _ =>
      exists rest,
        foldl (fun st i => build_filters_body q i st) (sql, join) idx
        = (sql ++ (if join then lit " AND " else lit "WHERE ") ++ rest, true)
  end.
Proof.
  revert sql join. induction idx as [|i idx IH]; intros sql join;
    [reflexivity|].
  cbn [List.filter foldl].
  destruct (build_filters_body_cases q i sql join)
    as [(Hset & x & Hb)|(Hset & Hb)]; rewrite Hset, Hb.
  - specialize (IH (sql ++ (if join then lit " AND " else lit "WHERE ") ++ x)
                   true).
    revert IH. destruct (List.filter _ idx); intros IH.
    + exists x. exact IH.
    + destruct IH as (rest & IH). exists (x ++ lit " AND " ++ rest).
      etransitivity; [exact IH|].
      rewrite <- !app_assoc. reflexivity.
  - apply IH.
Qed.

(** X18: [build_filters] returns the empty string when no field has
    both a filter and a column in the format of the query, and a
    string that starts with ["WHERE "] otherwise. *)
Theorem build_filters_where (q : query_t) :
  match filtered_fields q with
  | [] => build_filters q = []
  | _ :: _ => exists rest, build_filters q = lit "WHERE " ++ rest
  end.
Proof.
  unfold filtered_fields, build_filters, string_release.
  pose proof (build_fold q (seq 1 QUERY_FIELD_ALL) string_new false) as H.
  destruct (List.filter _ (seq 1 QUERY_FIELD_ALL)).
  - rewrite H. reflexivity.
  - destruct H as (rest & ->). exists rest. reflexivity.
Qed.

Lemma count_byte_app (b : byte) (l1 l2 : list byte) :
  count_byte b (l1 ++ l2) = (count_byte b l1 + count_byte b l2)%nat.
Proof. unfold count_byte. rewrite List.filter_app, length_app. reflexivity. Qed.

Lemma id_bytes_no_mark (f : list byte) :
  Forall id_byte f -> count_byte "?" f = 0%nat.
Proof.
  unfold count_byte. induction 1 as [|b f Hb _ IH]; [reflexivity|].
  cbn [List.filter].
  assert (Hne : Byte.eqb "?" b = false).
  { apply byte_eqb_neq. intros <-.
    destruct Hb as [Hb|Hb]; [discriminate|]. simpl in Hb. lia. }
  rewrite Hne. exact IH.
Qed.

Lemma count_sep (sql : list byte) (join : bool) :
  count_byte "?" (if negb join then sql ++ lit "WHERE "
                  else sql ++ lit " AND ")
  = count_byte "?" sql.
Proof.
  destruct join; cbn [negb]; rewrite count_byte_app.
  - change (count_byte "?" (lit " AND ")) with 0%nat. lia.
  - change (count_byte "?" (lit "WHERE ")) with 0%nat. lia.
Qed.

Lemma count_consts :
  count_byte "?" (lit " LIKE ?") = 1%nat /\
  count_byte "?" (lit " IN (") = 0%nat /\
  count_byte "?" (lit ")") = 0%nat.
Proof. repeat split. Qed.

Lemma bind_build_fold (q : query_t) (idx : list nat)
    (n : Z) (binds : list (Z * list byte)) (sql : string_t) (join : bool) :
  id_filters_clean q ->
  maps_plain (format q) ->
  (length (snd (foldl (fun st i => bind_filters_body q i st) (n, binds) idx))
   + count_byte "?" sql
   = length binds
     + count_byte "?"
         (fst (foldl (fun st i => build_filters_body q i st) (sql, join) idx))
     + length (List.filter
         (fun i => is_set (default None (filters q !! i))
                   && negb (default false (id_fields !! i))
                   && negb (is_set (default None (maps (format q) !! i))))
         idx))%nat.
Proof.
  intros Hclean Hplain. revert n binds sql join.
  assert (Hstep : forall (a cs cs' lb lb' d e e' : nat),
            (a + cs' = lb' + d + e)%nat ->
            (cs' + lb + e' = cs + lb' + e)%nat ->
            (a + cs = lb + d + e')%nat) by (intros; lia).
  induction idx as [|i idx IH]; intros n binds sql join; [simpl; lia|].
  cbn [foldl List.filter].
  unfold bind_filters_body at 2. unfold build_filters_body at 2.
  destruct (filters q !! i) as [[f|]|] eqn:Hf;
    cbn [default from_option id is_set andb]; try apply IH.
  assert (Hmark : forall m, maps (format q) !! i = Some (Some m) ->
                            count_byte "?" m = 0%nat).
  { intros m Hm.
    exact (proj1 (Forall_lookup _ _) Hplain i (Some m) Hm). }
  destruct count_consts as (K1 & K2 & K3).
  destruct (id_fields !! i) as [[|]|] eqn:Hid;
    cbn [default from_option id negb andb is_set].
  - (* an id field: no parameter, the list goes into the text *)
    destruct (maps (format q) !! i) as [[m|]|] eqn:Hm;
      cbn [default from_option id]; try apply IH.
    pose proof (id_bytes_no_mark f (Hclean i f Hid Hf)) as Hf0.
    eapply Hstep; [apply (IH n binds)|].
    rewrite !count_byte_app, count_sep, (Hmark m eq_refl), Hf0, K2, K3.
    lia.
  - destruct (maps (format q) !! i) as [[m|]|] eqn:Hm;
      cbn [default from_option id is_set negb].
    + eapply Hstep; [apply (IH (n + 1) (binds ++ [(n, f)]))|].
      rewrite !count_byte_app, count_sep, (Hmark m eq_refl), K1, length_app.
      simpl length. lia.
    + eapply Hstep; [apply (IH (n + 1) (binds ++ [(n, f)]))|].
      rewrite length_app. simpl length. lia.
    + eapply Hstep; [apply (IH (n + 1) (binds ++ [(n, f)]))|].
      rewrite length_app. simpl length. lia.
  - destruct (maps (format q) !! i) as [[m|]|] eqn:Hm;
      cbn [default from_option id is_set negb].
    + eapply Hstep; [apply (IH (n + 1) (binds ++ [(n, f)]))|].
      rewrite !count_byte_app, count_sep, (Hmark m eq_refl), K1, length_app.
      simpl length. lia.
    + eapply Hstep; [apply (IH (n + 1) (binds ++ [(n, f)]))|].
      rewrite length_app. simpl length. lia.
    + eapply Hstep; [apply (IH (n + 1) (binds ++ [(n, f)]))|].
      rewrite length_app. simpl length. lia.
Qed.

(** X19: [bind_filters] binds one parameter for every text filter that
    is set, whether or not the format of the query has a column for
    the field, while [build_filters] writes a [?] only for the fields
    that have one.  So the parameters bound are the placeholders in
    the WHERE clause plus the text filters on fields without a column;
    the two counts agree when there is no such filter, as in every
    track query. *)
Theorem bind_filters_placeholders (q : query_t) :
  id_filters_clean q ->
  maps_plain (format q) ->
  length (bind_filters q) =
    (count_byte "?" (build_filters q) + length (unmapped_text_filters q))%nat
  /\ (format q = track_query -> unmapped_text_filters q = []).
Proof.
  intros Hclean Hplain. split.
  - pose proof (bind_build_fold q (seq 1 QUERY_FIELD_ALL) 1 [] string_new
                  false Hclean Hplain) as H.
    assert (Hfin : forall a d e : nat,
              (a + 0 = 0 + d + e)%nat -> a = (d + e)%nat) by (intros; lia).
    apply Hfin. exact H.
  - intros Hfmt. unfold unmapped_text_filters. rewrite Hfmt.
    cbn. rewrite !andb_false_r. reflexivity.
Qed.

End QueryFilterSpec.

(** * The further statements at concrete sessions and queries *)

Module ScenariosMore.

Import Client Examples ExamplesMore ClientSpec ClientFlush ClientCycleSpec.

Lemma client_process_read_ends_witness :
  client_process registry {| io_read := read_error; io_write := wrote 0 |}
    (bound (lit "half") (lit "queued") true)
  = (-1, bound (lit "half") (lit "queued") true, []).
Proof.
  apply (client_process_read_ends registry
           {| io_read := read_error; io_write := wrote 0 |}).
  right. split; [reflexivity|discriminate].
Defined.

Lemma client_process_write_fails_witness :
  client_process registry
    {| io_read := read_bytes (lit "more"); io_write := write_error |}
    (bound (lit "some") (lit "queued") false)
  = (-1, bound (lit "somemore") (lit "queued") false, []).
Proof.
  apply (client_process_write_fails registry
           {| io_read := read_bytes (lit "more"); io_write := write_error |}
           (bound (lit "some") (lit "queued") false) proto_b).
  - reflexivity.
  - vm_compute. discriminate.
  - discriminate.
  - reflexivity.
  - discriminate.
Defined.

Lemma client_process_process_fails_witness :
  let io := {| io_read := would_block; io_write := wrote 0 |} in
  let '(result, c', t) :=
    client_process [proto_f] io (bound_to proto_f (lit "junk") [] false) in
  result = -7 /\ inbuf c' = lit "junk" /\ outbuf c' = lit "!".
Proof.
  cbv zeta.
  pose proof (client_process_process_fails [proto_f]
                {| io_read := would_block; io_write := wrote 0 |}
                (bound_to proto_f (lit "junk") [] false)
                (bound_to proto_f (lit "junk") [] false)
                proto_f (-7)
                {| eff_self := Some 0%nat; eff_out := lit "!";
                   eff_feed := None |}
                eq_refl eq_refl) as H.
  destruct (client_process [proto_f] _ _) as [[r c'] t].
  destruct H as (H1 & H2 & H3 & _).
  - discriminate.
  - reflexivity.
  - reflexivity.
  - auto.
Defined.

Lemma client_run_bound_calls_witness :
  let ios := [ {| io_read := read_bytes (lit "Ahoy"); io_write := wrote 0 |};
               {| io_read := would_block; io_write := wrote 1 |} ] in
  Forall (fun e => (exists buf, e = CallProcess proto_b buf)
                   \/ e = CallFeed proto_b)
         (snd (client_run registry ios (bound [] [] true))).
Proof.
  cbv zeta.
  apply (client_run_bound_calls registry _ (bound [] [] true) proto_b).
  reflexivity.
Defined.

Lemma client_process_binds_and_processes_witness :
  snd (client_process registry
         {| io_read := read_bytes (lit "Bye"); io_write := wrote 0 |}
         (client_new 3))
  = [CallDetect proto_a (lit "Bye"); CallDetect proto_b (lit "Bye");
     CallOpen proto_b; CallProcess proto_b (lit "Bye")].
Proof.
  apply (client_process_binds_and_processes registry
           {| io_read := read_bytes (lit "Bye"); io_write := wrote 0 |}
           (client_new 3) [proto_a] proto_b [proto_b']).
  - reflexivity.
  - vm_compute. discriminate.
  - discriminate.
  - reflexivity.
  - repeat constructor. vm_compute. discriminate.
  - reflexivity.
  - left. simpl. lia.
Defined.

Lemma client_process_unbound_would_block_witness :
  client_process registry
    {| io_read := would_block; io_write := wrote 0 |} (client_new 3)
  = (-1, client_new 3,
     [CallDetect proto_a []; CallDetect proto_b []; CallDetect proto_b' []]).
Proof.
  apply (client_process_unbound_would_block registry
           {| io_read := would_block; io_write := wrote 0 |} (client_new 3)).
  - reflexivity.
  - reflexivity.
  - reflexivity.
  - repeat constructor; vm_compute; discriminate.
Defined.

Lemma client_process_output_pending_witness :
  client_process registry
    {| io_read := would_block; io_write := wrote 4 |}
    (bound [] (lit "0123456789") true)
  = (0, bound [] (lit "456789") true, []).
Proof.
  apply (client_process_output_pending registry
           {| io_read := would_block; io_write := wrote 4 |}
           (bound [] (lit "0123456789") true) proto_b).
  - reflexivity.
  - reflexivity.
  - reflexivity.
  - reflexivity.
  - discriminate.
  - simpl. lia.
Defined.

Lemma flush_run_conserves_witness :
  let c := bound [] (lit "0123456789") false in
  flush_run [wrote 4; wrote 0; wrote 6] c = (lit "0123456789", bound [] [] false)
  /\ fst (flush_run [wrote 4; wrote 0; wrote 6] c) = outbuf c.
Proof.
  cbv zeta. split; [reflexivity|].
  apply (flush_run_conserves [wrote 4; wrote 0; wrote 6]
           (bound [] (lit "0123456789") false)).
  - repeat constructor; simpl; lia.
  - simpl. lia.
Defined.

Lemma client_send_c_string_witness :
  client_send 2 (bound [] (lit "ok") false) ["a"%byte; x00; "b"%byte]
  = Some (3, bound [] (lit "oka") false).
Proof.
  apply (client_send_c_string (bound [] (lit "ok") false)
           ["a"%byte; x00; "b"%byte] 2).
  - vm_compute. reflexivity.
  - lia.
Defined.

Import Query QuerySpec QuerySort QuerySortSpec QueryFilterSpec.

Lemma query_field_from_string_names_witness :
  query_field_from_string (lit "artist" ++ [x00] ++ lit "junk") = 6%nat.
Proof.
  apply (proj1 (query_field_from_string_names
                  (lit "artist" ++ [x00] ++ lit "junk")) 6%nat).
  - lia.
  - reflexivity.
Defined.

Lemma query_sort_builds_order_witness :
  order (foldl (fun q it => query_sort q (fst it) (snd it)) query_artists_new
               [(6%nat, false); (5%nat, true); (1%nat, true)])
  = lit "artists.name COLLATE NOCASE ASC, artists.rowid COLLATE NOCASE DESC".
Proof.
  apply (query_sort_builds_order query_artists_new
           [(6%nat, false); (5%nat, true); (1%nat, true)]).
  reflexivity.
Defined.

Lemma query_sort_from_string_reads_witness :
  sort_string [(lit "artist", false); (lit "title", true)]
  = lit "artist,-title" /\
  option_map (fun r => (fst r, order (snd r)))
    (query_sort_from_string query_tracks_new
       (sort_string [(lit "artist", false); (lit "title", true)]))
  = Some (0, lit "artists.name COLLATE NOCASE ASC, tracks.title COLLATE NOCASE DESC").
Proof.
  split; [reflexivity|].
  rewrite (query_sort_from_string_reads query_tracks_new
             [(lit "artist", false); (lit "title", true)]).
  - reflexivity.
  - repeat constructor; try discriminate.
Defined.

Lemma query_sort_from_string_stops_witness :
  sort_string ([(lit "artist", false)] ++ [(lit "bogus", true)]) ++ lit ",title"
  = lit "artist,-bogus,title" /\
  option_map (fun r => (fst r, order (snd r)))
    (query_sort_from_string query_tracks_new
       (sort_string ([(lit "artist", false)] ++ [(lit "bogus", true)])
          ++ lit ",title"))
  = Some (-1, lit "artists.name COLLATE NOCASE ASC").
Proof.
  split; [reflexivity|].
  rewrite (query_sort_from_string_stops query_tracks_new
             [(lit "artist", false)] (lit "bogus") (lit ",title") true).
  - reflexivity.
  - repeat constructor; try discriminate.
  - split.
    + eexists _, _. split; [reflexivity|split; discriminate].
    + repeat constructor; discriminate.
  - reflexivity.
  - right. eexists. reflexivity.
Defined.

Lemma build_filters_text_blind_witness :
  build_filters (query_filter query_tracks_new 5%nat
                   (Some (lit "x' OR '1'='1")))
  = build_filters (query_filter query_tracks_new 5%nat (Some (lit "love"))).
Proof.
  apply (build_filters_text_blind query_tracks_new 5%nat). reflexivity.
Defined.

Lemma bind_filters_placeholders_witness :
  let q := query_filter (query_filter query_artists_new 5%nat (Some (lit "a")))
                        6%nat (Some (lit "b")) in
  length (bind_filters q) =
    (count_byte "?" (build_filters q) + length (unmapped_text_filters q))%nat
  /\ bind_filters q = [(1, lit "%a%"); (2, lit "%b%")]
  /\ build_filters q = lit "WHERE artists.name LIKE ?".
Proof.
  cbv zeta. split; [|split; reflexivity].
  apply (bind_filters_placeholders
           (query_filter (query_filter query_artists_new 5%nat (Some (lit "a")))
                         6%nat (Some (lit "b")))).
  - intros i s Hid Hs.
    do 11 (destruct i as [|i];
           [try discriminate Hid; try discriminate Hs|]).
    discriminate Hid.
  - repeat constructor.
Defined.

End ScenariosMore.
